(** * rs-wasm-alloc: the host side of the WebAssembly external allocator

    A shallow embedding of [index.js]: the block-list allocator
    ([AllocModule]), the panic and debug bridges ([PanicModule],
    [DebugModule]) and the part of [Runner] they call, followed by the
    properties of the specification that are about them.

    Conventions of the embedding.
    - A JavaScript number that holds an integer is a [Z].  Every number the
      guest passes is an i32, and the allocator only adds such numbers and
      rounds them up to a multiple of a positive alignment, so, as long as the
      addresses stay below 2^53, no rounding takes place and
      [Math.ceil(a / b) * b] is the integer ceiling (see [alignPointer]).
    - A JavaScript string is the list of its UTF-16 code units.
    - A method that can throw returns a [Result]; a method that updates
      [this] returns the updated object next to its result. *)

From stdpp Require Import base numbers list.
From Stdlib Require Import Strings.String Strings.Ascii.
From Stdlib Require Import DecimalString HexadecimalString.

Local Open Scope Z_scope.

(** ** Strings *)

Definition JsString : Type := list N.

(** A string literal of the source (all of them are ASCII). *)
Definition lit (s : string) : JsString :=
  map N_of_ascii (list_ascii_of_string s).

(** [String(n)] and [`${n}`] for an integer [n] of less than 22 digits, as
    every i32 is: decimal digits, and a minus sign for a negative number. *)
Definition Number_toString (n : Z) : JsString :=
  lit (DecimalString.NilZero.string_of_int (Z.to_int n)).

(** [n.toString(16)]: lower-case hexadecimal digits. *)
Definition Number_toString16 (n : Z) : JsString :=
  lit (HexadecimalString.NilZero.string_of_int (Z.to_hex_int n)).

(** ** Exceptions *)

(** Where a [TypeError] comes from: the program's own [throw new
    TypeError(message)], or the engine, when a value that is not a function
    is called or a property of [undefined] is read (the wording of the
    engine's message is not fixed by the language). *)
Inductive TypeErrorOrigin :=
| Thrown (message : JsString)
| NotCallable (callee : JsString)
| OfUndefined.

(** [ReferenceError] is what the engine throws when a name is read that
    nothing declares; it carries the name.  [FatalError] is the class the
    program names in [throw new FatalError(...)]; no declaration of it is
    in the program (see [new_FatalError]). *)
Inductive Exn :=
| TypeError (origin : TypeErrorOrigin)
| RangeError
| ReferenceError (name : JsString)
| FatalError (message : JsString)
| WasmPanicError (message file : JsString) (line column : Z)
| FreeUnallocedError (message : JsString) (pointer size align : Z)
| FreeAgainError (message : JsString) (pointer size align : Z)
| FreeMismatchedSizeError
    (message : JsString) (pointer triedSize triedAlign actualSize : Z)
| ReallocFreedError (message : JsString) (pointer size align : Z)
| ReallocUnallocedError (message : JsString) (pointer size align : Z)
| BlockSizeMismatchError
    (message : JsString) (pointer expectedSize align actualSize : Z).

Inductive Result (A : Type) :=
| Ok (a : A)
| Throw (e : Exn).
Arguments Ok {A} a.
Arguments Throw {A} e.

Definition bind {A B} (m : Result A) (k : A -> Result B) : Result B :=
  match m with
  | Ok a => k a
  | Throw e => Throw e
  end.

Notation "'let*' x := m 'in' k" := (bind m (fun x => k))
  (at level 10, x pattern, m at level 100, k at level 200).

(** [throw new C(...)]: the constructor call is evaluated first, and when it
    throws itself, that exception is the one that propagates. *)
Definition throw_new {A} (constructed : Result Exn) : Result A :=
  match constructed with
  | Ok e => Throw e
  | Throw e => Throw e
  end.

(** A template literal that directly follows an expression, with no operator
    in between, is a tagged template: the value of the expression is called
    with the pieces of the literal.  Here the expression is a string, which
    is not callable. *)
Definition taggedTemplate (tag quasi : JsString) : Result JsString :=
  Throw (TypeError (NotCallable tag)).

(** [new FatalError(message)]: the program declares no [FatalError], so
    reading the name, which comes before the arguments and the
    construction, throws [ReferenceError]. *)
Definition new_FatalError (message : JsString) : Result Exn :=
  Throw (ReferenceError (lit "FatalError")).

(** The message all the three-argument allocator errors share. *)
Definition message3 (what : string) (pointer size align : Z) : JsString :=
  lit what ++
  (lit "(of size " ++ Number_toString size ++ lit " with alignment " ++
   Number_toString align ++ lit ") ") ++
  (lit "at 0x" ++ Number_toString16 pointer).

Definition new_FreeUnallocedError (pointer size align : Z) : Result Exn :=
  Ok (FreeUnallocedError
        (message3 "tried to free unallocated memory " pointer size align)
        pointer size align).

Definition new_FreeAgainError (pointer size align : Z) : Result Exn :=
  Ok (FreeAgainError
        (message3 "tried to free again memory " pointer size align)
        pointer size align).

(** The last two pieces of the message are not joined by [+]: the fourth
    template literal is applied to the third. *)
Definition new_FreeMismatchedSizeError
    (pointer triedSize triedAlign actualSize : Z) : Result Exn :=
  let* tail := taggedTemplate
                  (lit "though the block was of size " ++
                   Number_toString actualSize ++ lit ") ")
                  (lit "at 0x" ++ Number_toString16 pointer) in
  Ok (FreeMismatchedSizeError
        (lit "tried to free memory with mismatched size " ++
         (lit "(tried size " ++ Number_toString triedSize ++
          lit " with alignment " ++ Number_toString triedAlign ++ lit ", ") ++
         tail)
        pointer triedSize triedAlign actualSize).

Definition new_ReallocFreedError (pointer size align : Z) : Result Exn :=
  Ok (ReallocFreedError
        (message3 "tried to reallocate freed memory " pointer size align)
        pointer size align).

Definition new_ReallocUnallocedError (pointer size align : Z) : Result Exn :=
  Ok (ReallocUnallocedError
        (message3 "tried to reallocate unallocated memory " pointer size align)
        pointer size align).

(** Same shape as [new_FreeMismatchedSizeError], same missing [+]. *)
Definition new_BlockSizeMismatchError
    (pointer expectedSize align actualSize : Z) : Result Exn :=
  let* tail := taggedTemplate
                  (lit "though the block was of size " ++
                   Number_toString actualSize ++ lit ") ")
                  (lit "at 0x" ++ Number_toString16 pointer) in
  Ok (BlockSizeMismatchError
        (lit "encountered memory block size mismatch " ++
         (lit "(expected size " ++ Number_toString expectedSize ++
          lit " with alignment " ++ Number_toString align ++ lit ", ") ++
         tail)
        pointer expectedSize align actualSize).

(** The error kinds of the specification.  [kindOf] files an exception
    under the kind its class stands for in the program: each error class
    the program declares under the kind of that name, and [FatalError],
    the class the program names for its fatal faults, under [Fatal].  The
    built-in [TypeError], [RangeError] and [ReferenceError], whether the
    program or the engine throws them, have no kind. *)
Inductive ErrorKind :=
| FreeUnallocated
| FreeAgain
| FreeMismatchedSize
| ReallocFreed
| ReallocUnallocated
| BlockSizeMismatch
| Fatal
| GuestPanic.

Definition kindOf (e : Exn) : option ErrorKind :=
  match e with
  | TypeError _ => None
  | RangeError => None
  | ReferenceError _ => None
  | FatalError _ => Some Fatal
  | WasmPanicError _ _ _ _ => Some GuestPanic
  | FreeUnallocedError _ _ _ _ => Some FreeUnallocated
  | FreeAgainError _ _ _ _ => Some FreeAgain
  | FreeMismatchedSizeError _ _ _ _ _ => Some FreeMismatchedSize
  | ReallocFreedError _ _ _ _ => Some ReallocFreed
  | ReallocUnallocedError _ _ _ _ => Some ReallocUnallocated
  | BlockSizeMismatchError _ _ _ _ _ => Some BlockSizeMismatch
  end.

(** ** Guest memory and typed arrays *)

(** A byte of guest memory is a [Z] in 0..255; an [ArrayBuffer] is the list
    of its bytes. *)
Definition ArrayBuffer : Type := list Z.

(** A [WebAssembly.Memory] object, with its property [buffer]. *)
Module Memory.

Record t := { buffer : ArrayBuffer }.

End Memory.

Module Uint8Array.

(** A typed array is a window onto the guest's buffer, or has storage of
    its own. *)
Inductive t :=
| View (byteOffset length : Z)
| Own (elements : list Z).

(** What the program passes as first argument of the constructor: the
    guest's buffer, or the memory object itself. *)
Inductive Source :=
| OfBuffer (buffer : ArrayBuffer)
| OfMemory (memory : Memory.t).

(** [new Uint8Array(x, byteOffset, length)].  With an [ArrayBuffer] the
    result is a view of [length] bytes from [byteOffset], and a window
    that does not fit is a [RangeError].  A [WebAssembly.Memory] object is
    neither a buffer nor a typed array nor iterable: it is read as an
    array-like object, and it has no [length] property, so the result is a
    new array of length 0 and the other two arguments are not used. *)
Definition new (x : Source) (byteOffset length : Z) : Result t :=
  match x with
  | OfBuffer buffer =>
      if (byteOffset <? 0) || (length <? 0) ||
         (Z.of_nat (List.length buffer) <? byteOffset + length)
      then Throw RangeError
      else Ok (View byteOffset length)
  | OfMemory _ => Ok (Own [])
  end.

Definition elements (a : t) (guest : ArrayBuffer) : list Z :=
  match a with
  | View byteOffset length =>
      take (Z.to_nat length) (drop (Z.to_nat byteOffset) guest)
  | Own elements => elements
  end.

Definition length (a : t) : Z :=
  match a with
  | View _ length => length
  | Own elements => Z.of_nat (List.length elements)
  end.

(** [target.set(source)], with [guest] the bytes of the guest's buffer: the
    elements of [source] are written to [target] from index 0; a source
    longer than the target is a [RangeError].  The result is the target
    and the guest's buffer as they are afterwards. *)
Definition set (target source : t) (guest : ArrayBuffer)
    : Result (t * ArrayBuffer) :=
  let data := elements source guest in
  if length target <? Z.of_nat (List.length data) then Throw RangeError
  else
    match target with
    | View byteOffset _ =>
        let start := Z.to_nat byteOffset in
        Ok (target,
            take start guest ++ data ++
            drop (start + List.length data)%nat guest)
    | Own elements =>
        Ok (Own (data ++ drop (List.length data) elements), guest)
    end.

(** [a[index]]: the element, [None] standing for the [undefined] that an
    index outside of the array gives. *)
Definition get (a : t) (guest : ArrayBuffer) (index : nat) : option Z :=
  elements a guest !! index.

(** [a[index] = value] for an integer [value]: it is stored modulo 256, and
    an index outside of the array is ignored.  The result is the array and
    the guest's buffer as they are afterwards. *)
Definition put (a : t) (guest : ArrayBuffer) (index : nat) (value : Z)
    : t * ArrayBuffer :=
  match a with
  | View byteOffset length =>
      if Z.of_nat index <? length
      then (a, <[(Z.to_nat byteOffset + index)%nat := value mod 256]> guest)
      else (a, guest)
  | Own elements => (Own (<[index := value mod 256]> elements), guest)
  end.

End Uint8Array.

(** ** 32-bit typed arrays *)

(** A [Uint32Array] or [Int32Array] keeps each element in four bytes, in the
    byte order of the platform the engine runs on. *)
Inductive ByteOrder :=
| LittleEndian
| BigEndian.

Module Word32Array.

(** [new Uint32Array(buffer, byteOffset, 1)] and [new Int32Array(buffer,
    byteOffset, 1)]: a [byteOffset] that is not a multiple of 4, and a
    window that does not fit, are a [RangeError]; the result is the index
    of the element's first byte. *)
Definition new (buffer : ArrayBuffer) (byteOffset : Z) : Result nat :=
  if (byteOffset <? 0) || negb (byteOffset mod 4 =? 0) ||
     (Z.of_nat (List.length buffer) <? byteOffset + 4)
  then Throw RangeError
  else Ok (Z.to_nat byteOffset).

(** The four bytes of a 32-bit pattern, lowest first. *)
Definition low_first (bits : Z) : list Z :=
  [bits mod 256; (bits / 256) mod 256;
   (bits / 65536) mod 256; (bits / 16777216) mod 256].

Definition of_low_first (bytes : list Z) : option Z :=
  match bytes with
  | [b0; b1; b2; b3] => Some (b0 + 256 * b1 + 65536 * b2 + 16777216 * b3)
  | _ => None
  end.

Definition in_order (order : ByteOrder) (bytes : list Z) : list Z :=
  match order with
  | LittleEndian => bytes
  | BigEndian => rev bytes
  end.

(** [view[0] = value] for an integer [value], which both kinds of array
    store modulo 2^32. *)
Definition put (order : ByteOrder) (buffer : ArrayBuffer) (start : nat)
    (value : Z) : ArrayBuffer :=
  take start buffer ++
  in_order order (low_first (value mod 4294967296)) ++
  drop (start + 4) buffer.

(** The 32-bit pattern of [view[0]]. *)
Definition bits (order : ByteOrder) (buffer : ArrayBuffer) (start : nat)
    : option Z :=
  of_low_first (in_order order (take 4 (drop start buffer))).

(** The pattern as an [Int32Array] reads it. *)
Definition signed (bits : Z) : Z :=
  if bits <? 2147483648 then bits else bits - 4294967296.

End Word32Array.

Module Runner.

(** The runner holds the decoder and the instance.  Of the instance only
    the exported memory is read here: [memory_export] is
    [instance.exports.memory], [None] when the guest exports none. *)
Record t := {
  textDecoder : list Z -> JsString;
  memory_export : option Memory.t
}.

(** [memory()]; without an exported memory it gets to [throw new
    FatalError(...)], whose constructor call throws. *)
Definition memory (self : t) : Result Memory.t :=
  match memory_export self with
  | None => throw_new (new_FatalError (lit "memory is not exported"))
  | Some memory => Ok memory
  end.

Definition bytes (self : t) (offset length : Z) : Result Uint8Array.t :=
  let* memory := memory self in
  Uint8Array.new (Uint8Array.OfBuffer (Memory.buffer memory)) offset length.

Definition decodeUtf8 (self : t) (pointer length : Z) : Result JsString :=
  let* memory := memory self in
  let* view :=
    Uint8Array.new (Uint8Array.OfBuffer (Memory.buffer memory))
      pointer length in
  Ok (textDecoder self (Uint8Array.elements view (Memory.buffer memory))).

(** The runner once the guest's buffer holds [buffer]. *)
Definition with_buffer (self : t) (buffer : ArrayBuffer) : t :=
  {| textDecoder := textDecoder self;
     memory_export := Some {| Memory.buffer := buffer |} |}.

Definition writeU8 (self : t) (offset value : Z) : Result t :=
  let* memory := memory self in
  let* view :=
    Uint8Array.new (Uint8Array.OfBuffer (Memory.buffer memory)) offset 1 in
  Ok (with_buffer self
        (snd (Uint8Array.put view (Memory.buffer memory) 0 value))).

Definition readU8 (self : t) (offset : Z) : Result (option Z) :=
  let* memory := memory self in
  let* view :=
    Uint8Array.new (Uint8Array.OfBuffer (Memory.buffer memory)) offset 1 in
  Ok (Uint8Array.get view (Memory.buffer memory) 0).

(** The 32-bit accessors take the platform's byte order. *)
Definition writeU32 (order : ByteOrder) (self : t) (offset value : Z)
    : Result t :=
  let* memory := memory self in
  let* start := Word32Array.new (Memory.buffer memory) offset in
  Ok (with_buffer self
        (Word32Array.put order (Memory.buffer memory) start value)).

Definition readU32 (order : ByteOrder) (self : t) (offset : Z)
    : Result (option Z) :=
  let* memory := memory self in
  let* start := Word32Array.new (Memory.buffer memory) offset in
  Ok (Word32Array.bits order (Memory.buffer memory) start).

Definition writeI32 (order : ByteOrder) (self : t) (offset value : Z)
    : Result t :=
  let* memory := memory self in
  let* start := Word32Array.new (Memory.buffer memory) offset in
  Ok (with_buffer self
        (Word32Array.put order (Memory.buffer memory) start value)).

Definition readI32 (order : ByteOrder) (self : t) (offset : Z)
    : Result (option Z) :=
  let* memory := memory self in
  let* start := Word32Array.new (Memory.buffer memory) offset in
  Ok (Word32Array.signed <$>
        Word32Array.bits order (Memory.buffer memory) start).

End Runner.

(** ** The panic bridge *)

Module PanicModule.

(** [file] is [None] while the property is [undefined].  The bridges and
    the allocator refer to one runner, which their methods take as an
    argument. *)
Record t := {
  message : JsString;
  file : option JsString;
  line : Z;
  column : Z
}.

(** The state the constructor leaves. *)
Definition new : t :=
  {| message := []; file := None; line := 0; column := 0 |}.

(** [this.message += ch]: the guest's argument arrives as a number, and
    [+=] on a string appends the number's decimal text. *)
Definition panic_ch (self : t) (ch : Z) : t :=
  {| message := message self ++ Number_toString ch;
     file := file self; line := line self; column := column self |}.

Definition panic_str (runner : Runner.t) (self : t) (pointer length : Z)
    : Result t :=
  let* str := Runner.decodeUtf8 runner pointer length in
  Ok {| message := message self ++ str;
        file := file self; line := line self; column := column self |}.

Definition panic_put_file (runner : Runner.t) (self : t)
    (pointer length : Z) : Result t :=
  let* str := Runner.decodeUtf8 runner pointer length in
  Ok {| message := message self;
        file := Some str; line := line self; column := column self |}.

Definition panic_put_line_column (self : t) (line column : Z) : t :=
  {| message := message self; file := file self;
     line := line; column := column |}.

(** [panic()] always throws; the bridge itself is left as it is. *)
Definition panic (self : t) : Result Empty_set :=
  let line := line self in
  let column := column self in
  let file :=
    match file self with
    | None => lit "?"
    | Some file => file
    end in
  let message :=
    match message self with
    | [] =>
        lit "<no message, " ++ file ++ lit ":" ++ Number_toString line ++
        lit ":" ++ Number_toString column ++ lit ">"
    | message => message
    end in
  Throw (WasmPanicError message file line column).

End PanicModule.

(** ** The debug bridge *)

(** [String.fromCodePoint(code)]: one code unit below 0x10000, a surrogate
    pair from there to 0x10FFFF, a [RangeError] outside of 0..0x10FFFF. *)
Definition String_fromCodePoint (code : Z) : Result JsString :=
  if (code <? 0) || (0x10FFFF <? code) then Throw RangeError
  else if code <? 0x10000 then Ok [Z.to_N code]
  else
    let c := code - 0x10000 in
    Ok [Z.to_N (0xD800 + c / 0x400); Z.to_N (0xDC00 + c mod 0x400)].

Module DebugModule.

Record t := { dblog : list JsString }.

Definition new : t := {| dblog := [] |}.

Definition dblog_ch (self : t) (code : Z) : Result t :=
  let* ch := String_fromCodePoint code in
  Ok {| dblog := dblog self ++ [ch] |}.

Definition dblog_str (runner : Runner.t) (self : t) (pointer length : Z)
    : Result t :=
  let* str := Runner.decodeUtf8 runner pointer length in
  Ok {| dblog := dblog self ++ [str] |}.

(** The string handed to [console.debug], and the bridge afterwards. *)
Definition dblog_flush (self : t) : JsString * t :=
  (List.concat (dblog self), {| dblog := [] |}).

End DebugModule.

(** ** The allocator *)

Module AllocBlock.

Record t := {
  pointer : Z;
  size : Z;
  used : bool
}.

Definition new (pointer size : Z) : t :=
  {| pointer := pointer; size := size; used := true |}.

Definition nextPointerWith (pointer size : Z) : Z := pointer + size.

Definition nextPointer (self : t) : Z :=
  nextPointerWith (pointer self) (size self).

(** [block.used = false] *)
Definition release (self : t) : t :=
  {| pointer := pointer self; size := size self; used := false |}.

End AllocBlock.

Module AllocModule.

Import AllocBlock.

Record t := { blocks : list AllocBlock.t }.

Definition new : t := {| blocks := [] |}.

(** [Math.ceil(address / align) * align].  On integers, and for the
    [align >= 1] that [newBlock] lets through, the ceiling of the
    quotient is [- ((- address) / align)]. *)
Definition alignPointer (address align : Z) : Z :=
  (- ((- address) / align)) * align.

(** The [for] loop of [newBlock], at index [i] with [todo] iterations
    left ([todo] is [blockCount - i]).  The loop writes to a block only
    just before [break], so it is given as: the index of the block it
    stops at and the fields that block then has, or [None] when it runs
    to the end.  [blocks[i - 1]] is [undefined] for [i = 0]. *)
Fixpoint newBlock_loop (blocks : list AllocBlock.t) (size align : Z)
    (i todo : nat) : Result (option (nat * AllocBlock.t)) :=
  match todo with
  | O => Ok None
  | S todo =>
      match blocks !! i with
      | None => Throw (TypeError OfUndefined)
      | Some block =>
          if used block then newBlock_loop blocks size align (S i) todo
          else if size <=? AllocBlock.size block then
            let prevBlock :=
              match i with
              | O => None
              | S j => blocks !! j
              end in
            match prevBlock with
            | Some prevBlock =>
                let alignedPointer :=
                  alignPointer (nextPointer prevBlock) align in
                let reused :=
                  {| pointer := alignedPointer; size := size;
                     used := true |} in
                match blocks !! S i with
                | Some nextBlock =>
                    if pointer nextBlock <?
                       nextPointerWith alignedPointer size
                    then newBlock_loop blocks size align (S i) todo
                    else Ok (Some (i, reused))
                | None => Ok (Some (i, reused))
                end
            | None =>
                Ok (Some (i, {| pointer := pointer block; size := size;
                                used := true |}))
            end
          else newBlock_loop blocks size align (S i) todo
      end
  end.

(** [newBlock(self, size, align)]: the block it returns, and
    [self.blocks] afterwards. *)
Definition newBlock (self : t) (size align : Z)
    : Result (AllocBlock.t * t) :=
  if align <? 1 then
    Throw (TypeError (Thrown (lit "alignment cannot be less than 1")))
  else
    let blocks := blocks self in
    let blockCount := List.length blocks in
    if (0 <? blockCount)%nat then
      let* existingBlock := newBlock_loop blocks size align 0 blockCount in
      match existingBlock with
      | Some (i, existingBlock) =>
          Ok (existingBlock, {| blocks := <[i := existingBlock]> blocks |})
      | None =>
          match blocks !! (blockCount - 1)%nat with
          | None => Throw (TypeError OfUndefined)
          | Some lastBlock =>
              let pointer := alignPointer (nextPointer lastBlock) align in
              let existingBlock := AllocBlock.new pointer size in
              Ok (existingBlock, {| blocks := blocks ++ [existingBlock] |})
          end
      end
    else
      let block := AllocBlock.new align size in
      Ok (block, {| blocks := blocks ++ [block] |}).

Definition alloc (self : t) (size align : Z) : Result (Z * t) :=
  let* (block, self) := newBlock self size align in
  Ok (pointer block, self).

(** The [for ... of] loop of [dealloc] together with the [throw] that
    follows it: the first block at [pointer] decides. *)
Fixpoint dealloc_blocks (blocks : list AllocBlock.t)
    (pointer size align : Z) : Result (list AllocBlock.t) :=
  match blocks with
  | [] => throw_new (new_FreeUnallocedError pointer size align)
  | block :: rest =>
      if AllocBlock.pointer block =? pointer then
        if negb (used block) then
          throw_new (new_FreeAgainError pointer size align)
        else if negb (AllocBlock.size block =? size) then
          throw_new (new_FreeMismatchedSizeError
                       pointer size align (AllocBlock.size block))
        else Ok (release block :: rest)
      else
        let* rest := dealloc_blocks rest pointer size align in
        Ok (block :: rest)
  end.

Definition dealloc (self : t) (pointer size align : Z) : Result t :=
  let* blocks := dealloc_blocks (blocks self) pointer size align in
  Ok {| blocks := blocks |}.

(** The [for ... of] loop of [realloc]: the index of [reallocBlock], or
    [None] when the variable stays [undefined]. *)
Fixpoint realloc_loop (blocks : list AllocBlock.t) (i : nat)
    (pointer size align : Z) : Result (option nat) :=
  match blocks with
  | [] => Ok None
  | block :: rest =>
      if AllocBlock.pointer block =? pointer then
        if negb (used block) then
          throw_new (new_ReallocFreedError pointer size align)
        else if negb (AllocBlock.size block =? size) then
          throw_new (new_BlockSizeMismatchError
                       pointer size align (AllocBlock.size block))
        else Ok (Some i)
      else realloc_loop rest (S i) pointer size align
  end.

(** [realloc]: the address it returns, the allocator and the runner (with
    the guest's memory) afterwards.  Both typed arrays are made from
    [this.runner.memory()], the memory object, not from its buffer;
    [reallocBlock.pointer] is [pointer], as the loop stops at a block
    with that address. *)
Definition realloc (runner : Runner.t) (self : t)
    (pointer size align newSize : Z) : Result (Z * t * Runner.t) :=
  if size =? newSize then Ok (pointer, self, runner)
  else
    let* reallocBlock := realloc_loop (blocks self) 0 pointer size align in
    match reallocBlock with
    | None => throw_new (new_ReallocUnallocedError pointer size align)
    | Some i =>
        let self := {| blocks := alter release i (blocks self) |} in
        let* memory := Runner.memory runner in
        let* origData :=
          Uint8Array.new (Uint8Array.OfMemory memory) pointer size in
        let* (newBlock, self) := newBlock self newSize align in
        let* memory := Runner.memory runner in
        let* newData :=
          Uint8Array.new (Uint8Array.OfMemory memory)
            (AllocBlock.pointer newBlock) newSize in
        let* (_, buffer) :=
          Uint8Array.set newData origData (Memory.buffer memory) in
        Ok (AllocBlock.pointer newBlock, self,
            Runner.with_buffer runner buffer)
    end.

End AllocModule.

(** ** Sequences of calls *)

(** A call of the guest to [alloc] or [dealloc]. *)
Inductive Call :=
| CallAlloc (size align : Z)
| CallDealloc (pointer size align : Z).

(** One call: the address when it is an [alloc], and the allocator
    afterwards. *)
Definition call (self : AllocModule.t) (c : Call)
    : Result (option Z * AllocModule.t) :=
  match c with
  | CallAlloc size align =>
      let* (address, self) := AllocModule.alloc self size align in
      Ok (Some address, self)
  | CallDealloc pointer size align =>
      let* self := AllocModule.dealloc self pointer size align in
      Ok (None, self)
  end.

(** The calls in order, up to the first one that throws (the driver ends
    the run there): the addresses [alloc] returned, and the allocator at
    the end. *)
Fixpoint run (calls : list Call) (self : AllocModule.t)
    : Result (list Z * AllocModule.t) :=
  match calls with
  | [] => Ok ([], self)
  | c :: calls =>
      let* (address, self) := call self c in
      let* (addresses, self) := run calls self in
      Ok (option_list address ++ addresses, self)
  end.

(** The arguments of a valid [alloc]: a size that is not negative, as a
    u32 is, and an alignment of at least 1.  A [dealloc] is valid when it
    does not throw, which [run] returning [Ok] says. *)
Definition valid (c : Call) : Prop :=
  match c with
  | CallAlloc size align => 0 <= size /\ 1 <= align
  | CallDealloc _ _ _ => True
  end.

(** ** Properties of a block list *)

Section BlockLists.

Import AllocBlock.

Definition ascending (blocks : list AllocBlock.t) : Prop :=
  forall i j a b,
    (i <= j)%nat -> blocks !! i = Some a -> blocks !! j = Some b ->
    pointer a <= pointer b.

(** The addresses of a block: [pointer] up to, and without,
    [pointer + size]. *)
Definition covers (b : AllocBlock.t) (x : Z) : Prop :=
  pointer b <= x < nextPointer b.

Definition used_disjoint (blocks : list AllocBlock.t) : Prop :=
  forall i j a b,
    i <> j -> blocks !! i = Some a -> blocks !! j = Some b ->
    used a = true -> used b = true ->
    forall x, ~ (covers a x /\ covers b x).

(** What the allocator keeps true of all its blocks, used or free: no
    negative size, no address below 1, and each block ends at or before
    the start of the one after it. *)
Definition chained (blocks : list AllocBlock.t) : Prop :=
  (forall i a, blocks !! i = Some a -> 0 <= size a /\ 1 <= pointer a) /\
  (forall i a b,
      blocks !! i = Some a -> blocks !! S i = Some b ->
      nextPointer a <= pointer b).

(** The rule of the first-fit scan for a free block that is large enough
    and has a block before it, as a statement with the comparison left
    open: in a list where a block follows too, the iteration at that
    block goes on to the next one whenever [beyond] holds of the
    following block's address and the end of the candidate range. *)
Definition rejects_when (beyond : Z -> Z -> Prop) : Prop :=
  forall blocks size align i todo block prevBlock nextBlock,
    blocks !! i = Some prevBlock ->
    blocks !! S i = Some block ->
    blocks !! S (S i) = Some nextBlock ->
    used block = false ->
    size <= AllocBlock.size block ->
    beyond (pointer nextBlock)
           (nextPointerWith
              (AllocModule.alignPointer (nextPointer prevBlock) align)
              size) ->
    AllocModule.newBlock_loop blocks size align (S i) (S todo) =
    AllocModule.newBlock_loop blocks size align (S (S i)) todo.

End BlockLists.

(** The scan of [newBlock] gets as far as index [i]: from the first block
    on it behaves as it does from [i] on, every block before [i] having
    been passed over. *)
Definition scan_reaches (blocks : list AllocBlock.t) (size align : Z)
    (i : nat) : Prop :=
  AllocModule.newBlock_loop blocks size align 0 (List.length blocks) =
  AllocModule.newBlock_loop blocks size align i (List.length blocks - i).

(** ** Sequences of calls to the panic bridge *)

Inductive PanicCall :=
| PanicCh (ch : Z)
| PanicStr (pointer length : Z)
| PanicPutFile (pointer length : Z)
| PanicPutLineColumn (line column : Z).

(** The calls that send a fragment of the message. *)
Definition is_fragment (c : PanicCall) : bool :=
  match c with
  | PanicCh _ | PanicStr _ _ => true
  | PanicPutFile _ _ | PanicPutLineColumn _ _ => false
  end.

Definition panic_call (runner : Runner.t) (self : PanicModule.t)
    (c : PanicCall) : Result PanicModule.t :=
  match c with
  | PanicCh ch => Ok (PanicModule.panic_ch self ch)
  | PanicStr pointer length =>
      PanicModule.panic_str runner self pointer length
  | PanicPutFile pointer length =>
      PanicModule.panic_put_file runner self pointer length
  | PanicPutLineColumn line column =>
      Ok (PanicModule.panic_put_line_column self line column)
  end.

Fixpoint panic_calls (runner : Runner.t) (calls : list PanicCall)
    (self : PanicModule.t) : Result PanicModule.t :=
  match calls with
  | [] => Ok self
  | c :: calls =>
      let* self := panic_call runner self c in
      panic_calls runner calls self
  end.

(** The text a call to the panic bridge adds to the message. *)
Definition panic_fragment (runner : Runner.t) (c : PanicCall)
    : Result JsString :=
  match c with
  | PanicCh ch => Ok (Number_toString ch)
  | PanicStr pointer length => Runner.decodeUtf8 runner pointer length
  | PanicPutFile _ _ | PanicPutLineColumn _ _ => Ok []
  end.

(** ** Sequences of calls to the debug bridge *)

Inductive DebugCall :=
| DblogCh (code : Z)
| DblogStr (pointer length : Z)
| DblogFlush.

(** One call: what it hands to [console.debug], if anything, and the
    bridge afterwards. *)
Definition debug_call (runner : Runner.t) (self : DebugModule.t)
    (c : DebugCall) : Result (list JsString * DebugModule.t) :=
  match c with
  | DblogCh code =>
      let* self := DebugModule.dblog_ch self code in Ok ([], self)
  | DblogStr pointer length =>
      let* self := DebugModule.dblog_str runner self pointer length in
      Ok ([], self)
  | DblogFlush =>
      let (data, self) := DebugModule.dblog_flush self in Ok ([data], self)
  end.

(** The calls in order: all that was handed to [console.debug], and the
    bridge at the end. *)
Fixpoint debug_calls (runner : Runner.t) (calls : list DebugCall)
    (self : DebugModule.t) : Result (list JsString * DebugModule.t) :=
  match calls with
  | [] => Ok ([], self)
  | c :: calls =>
      let* (out, self) := debug_call runner self c in
      let* (outs, self) := debug_calls runner calls self in
      Ok (out ++ outs, self)
  end.

(** The fragment a call that is not a flush adds to the log. *)
Definition debug_fragment (runner : Runner.t) (c : DebugCall)
    : Result JsString :=
  match c with
  | DblogCh code => String_fromCodePoint code
  | DblogStr pointer length => Runner.decodeUtf8 runner pointer length
  | DblogFlush => Ok []
  end.

(** * Properties *)

(** ** Auxiliary facts *)

Lemma alignPointer_ge address align :
  1 <= align -> address <= AllocModule.alignPointer address align.
Proof.
  intros Halign. unfold AllocModule.alignPointer.
  pose proof (Z.mul_div_le (- address) align ltac:(lia)) as Hfloor.
  lia.
Qed.

Lemma alignPointer_multiple address align :
  1 <= align -> (align | AllocModule.alignPointer address align).
Proof.
  intros _. unfold AllocModule.alignPointer.
  exists (- (- address / align)). reflexivity.
Qed.

Lemma alignPointer_lt address align :
  1 <= align -> AllocModule.alignPointer address align < address + align.
Proof.
  intros Halign. unfold AllocModule.alignPointer.
  pose proof (Z.mod_pos_bound (- address) align ltac:(lia)) as Hmod.
  pose proof (Z.div_mod (- address) align ltac:(lia)) as Hdiv.
  lia.
Qed.

Section Allocator.

Import AllocBlock AllocModule.

(** Where the scan stops: at a free block [old] that is large enough, which
    keeps its address when it is the first of the list and is moved
    behind the block before it otherwise, short of the block after it. *)
Lemma newBlock_loop_stop blocks size align i todo k b :
  newBlock_loop blocks size align i todo = Ok (Some (k, b)) ->
  exists old,
    blocks !! k = Some old /\ used old = false /\
    size <= AllocBlock.size old /\
    match k with
    | O => b = {| pointer := pointer old; size := size; used := true |}
    | S j =>
        exists prevBlock,
          blocks !! j = Some prevBlock /\
          b = {| pointer := alignPointer (nextPointer prevBlock) align;
                 size := size; used := true |} /\
          forall nextBlock,
            blocks !! S k = Some nextBlock ->
            nextPointerWith (pointer b) size <= pointer nextBlock
    end.
Proof.
  revert i. induction todo as [|todo IH]; intros i Hloop; [discriminate|].
  simpl in Hloop.
  destruct (blocks !! i) as [block|] eqn:Hblock; [|discriminate].
  destruct (used block) eqn:Hused; [eauto|].
  destruct (size <=? AllocBlock.size block) eqn:Hsize; [|eauto].
  apply Z.leb_le in Hsize.
  destruct i as [|j].
  - injection Hloop as <- <-. exists block. auto.
  - destruct (blocks !! j) as [prevBlock|] eqn:Hprev.
    + destruct (blocks !! S (S j)) as [nextBlock|] eqn:Hnext.
      * destruct (pointer nextBlock <? _) eqn:Hfits; [eauto|].
        apply Z.ltb_ge in Hfits.
        injection Hloop as <- <-. exists block.
        repeat split; auto. exists prevBlock. repeat split; auto.
        intros next Heq. rewrite Hnext in Heq.
        injection Heq as <-. exact Hfits.
      * injection Hloop as <- <-. exists block.
        repeat split; auto. exists prevBlock. repeat split; auto.
        intros next Heq. rewrite Hnext in Heq. discriminate.
    + apply lookup_ge_None in Hprev. apply lookup_lt_Some in Hblock. lia.
Qed.

(** The scan does not run off the list. *)
Lemma newBlock_loop_returns blocks size align i todo :
  (i + todo <= List.length blocks)%nat ->
  exists r, newBlock_loop blocks size align i todo = Ok r.
Proof.
  revert i. induction todo as [|todo IH]; intros i Hi; simpl; [eauto|].
  destruct (lookup_lt_is_Some_2 blocks i ltac:(lia)) as [block ->].
  assert (exists r, newBlock_loop blocks size align (S i) todo = Ok r)
    as Hnext by (apply IH; lia).
  destruct (used block); [exact Hnext|].
  destruct (size <=? AllocBlock.size block); [|exact Hnext].
  destruct i as [|j]; [eauto|].
  destruct (blocks !! j); [|eauto].
  destruct (blocks !! S (S j)); [|eauto].
  destruct (_ <? _); eauto.
Qed.

(** [newBlock] in terms of the scan. *)
Lemma newBlock_cases self size align block self' :
  newBlock self size align = Ok (block, self') ->
  1 <= align /\
  ( (blocks self = [] /\ block = AllocBlock.new align size /\
     blocks self' = [block])
  \/ (exists k,
        newBlock_loop (blocks self) size align 0
          (List.length (blocks self)) = Ok (Some (k, block)) /\
        blocks self' = <[k := block]> (blocks self))
  \/ (exists lastBlock,
        newBlock_loop (blocks self) size align 0
          (List.length (blocks self)) = Ok None /\
        last (blocks self) = Some lastBlock /\
        block = AllocBlock.new
                  (alignPointer (nextPointer lastBlock) align) size /\
        blocks self' = blocks self ++ [block]) ).
Proof.
  unfold newBlock. intros Hnew.
  destruct (align <? 1) eqn:Halign; [discriminate|].
  apply Z.ltb_ge in Halign. split; [exact Halign|].
  destruct (0 <? List.length (blocks self))%nat eqn:Hcount.
  - right.
    destruct (newBlock_loop _ _ _ _ _) as [[[k b]|]|] eqn:Hloop;
      simpl in Hnew; [| |discriminate].
    + injection Hnew as <- <-. left. eauto.
    + right. rewrite last_lookup.
      replace (Nat.pred (List.length (blocks self)))
        with (List.length (blocks self) - 1)%nat by lia.
      destruct (blocks self !! _) as [lastBlock|]; [|discriminate].
      injection Hnew as <- <-. eauto.
  - left. apply Nat.ltb_ge in Hcount.
    destruct (blocks self) as [|first rest]; [|simpl in Hcount; lia].
    injection Hnew as <- <-. auto.
Qed.

(** With an alignment of at least 1, [alloc] returns. *)
Lemma alloc_returns self size align :
  1 <= align ->
  exists address self', alloc self size align = Ok (address, self').
Proof.
  intros Halign. unfold alloc, newBlock.
  destruct (align <? 1) eqn:Hlt; [apply Z.ltb_lt in Hlt; lia|].
  destruct (0 <? List.length (blocks self))%nat eqn:Hcount;
    [|simpl; eauto].
  apply Nat.ltb_lt in Hcount.
  destruct (newBlock_loop_returns (blocks self) size align 0
              (List.length (blocks self)) ltac:(lia)) as [r ->].
  destruct r as [[k b]|]; simpl; [eauto|].
  destruct (lookup_lt_is_Some_2 (blocks self)
              (List.length (blocks self) - 1) ltac:(lia)) as [b ->].
  simpl. eauto.
Qed.

(** *** The chain of blocks *)

Lemma chained_nil : chained [].
Proof. split; intros *; rewrite lookup_nil; discriminate. Qed.

(** Overwriting the block at [k] keeps the chain when the new fields fit
    between the neighbours. *)
Lemma chained_insert blocks k b :
  chained blocks ->
  0 <= size b -> 1 <= pointer b ->
  (forall j prevBlock,
      k = S j -> blocks !! j = Some prevBlock ->
      nextPointer prevBlock <= pointer b) ->
  (forall nextBlock,
      blocks !! S k = Some nextBlock -> nextPointer b <= pointer nextBlock) ->
  chained (<[k := b]> blocks).
Proof.
  intros [Hfields Hchain] Hsize Hpointer Hprev Hnext. split.
  - intros i a Ha. apply list_lookup_insert_Some in Ha.
    destruct Ha as [(_ & <- & _)|[_ Ha]]; eauto.
  - intros i a c Ha Hc.
    apply list_lookup_insert_Some in Ha, Hc.
    destruct Ha as [(-> & <- & _)|[Hik Ha]];
      destruct Hc as [(Hki & <- & _)|[Hik' Hc]]; try lia; eauto.
Qed.

Lemma chained_app blocks lastBlock b :
  chained blocks -> last blocks = Some lastBlock ->
  0 <= size b -> nextPointer lastBlock <= pointer b ->
  chained (blocks ++ [b]).
Proof.
  intros [Hfields Hchain] Hlast Hsize Hpointer.
  rewrite last_lookup in Hlast.
  assert (List.length blocks <> 0)%nat as Hcount
    by (apply lookup_lt_Some in Hlast; lia).
  destruct (Hfields _ _ Hlast) as [Hlsize Hlpointer].
  unfold nextPointer, nextPointerWith in Hpointer.
  split.
  - intros i a Ha. apply lookup_app_Some in Ha.
    destruct Ha as [Ha|[_ Ha]]; [eauto|].
    apply list_lookup_singleton_Some in Ha. destruct Ha as [_ <-]. lia.
  - intros i a c Ha Hc. apply lookup_app_Some in Ha, Hc.
    destruct Ha as [Ha|[Hi Ha]].
    + destruct Hc as [Hc|[Hi Hc]]; [eauto|].
      apply list_lookup_singleton_Some in Hc. destruct Hc as [Hi' <-].
      apply lookup_lt_Some in Ha as Hlt.
      replace (Nat.pred (List.length blocks)) with i in Hlast by lia.
      rewrite Ha in Hlast. injection Hlast as ->.
      exact Hpointer.
    + apply list_lookup_singleton_Some in Ha. destruct Ha as [Hi' <-].
      destruct Hc as [Hc|[_ Hc]].
      * apply lookup_lt_Some in Hc. lia.
      * apply list_lookup_singleton_Some in Hc. lia.
Qed.

(** Blocks further apart are chained too. *)
Lemma chained_lt blocks i j a b :
  chained blocks -> (i < j)%nat ->
  blocks !! i = Some a -> blocks !! j = Some b ->
  nextPointer a <= pointer b.
Proof.
  intros [Hfields Hchain] Hij Ha. revert b.
  induction j as [|j IH]; intros b Hb; [lia|].
  destruct (decide (i = j)) as [->|Hne]; [eauto|].
  destruct (lookup_lt_is_Some_2 blocks j) as [c Hc].
  { apply lookup_lt_Some in Hb. lia. }
  specialize (IH ltac:(lia) c Hc).
  specialize (Hchain _ _ _ Hc Hb).
  destruct (Hfields _ _ Hc) as [Hsize _].
  unfold nextPointer, nextPointerWith in *. lia.
Qed.

Lemma chained_ascending blocks : chained blocks -> ascending blocks.
Proof.
  intros Hchained i j a b Hij Ha Hb.
  destruct (decide (i = j)) as [->|Hne].
  - rewrite Ha in Hb. injection Hb as ->. lia.
  - assert (i < j)%nat as Hlt' by lia.
    pose proof (chained_lt _ _ _ _ _ Hchained Hlt' Ha Hb) as Hlt.
    destruct Hchained as [Hfields _].
    destruct (Hfields _ _ Ha) as [Hsize _].
    unfold nextPointer, nextPointerWith in Hlt. lia.
Qed.

Lemma chained_used_disjoint blocks : chained blocks -> used_disjoint blocks.
Proof.
  intros Hchained i j a b Hij Ha Hb _ _ x [[Hax Hxa] [Hbx Hxb]].
  destruct (decide (i < j)%nat) as [Hlt|Hge].
  - pose proof (chained_lt _ _ _ _ _ Hchained Hlt Ha Hb). lia.
  - assert (j < i)%nat as Hlt by lia.
    pose proof (chained_lt _ _ _ _ _ Hchained Hlt Hb Ha). lia.
Qed.

(** *** The operations keep the chain *)

Lemma newBlock_chained self size align block self' :
  chained (blocks self) -> 0 <= size ->
  newBlock self size align = Ok (block, self') ->
  chained (blocks self') /\ 1 <= pointer block /\
  (List.length (blocks self) <= List.length (blocks self'))%nat.
Proof.
  intros Hchained Hsize Hnew.
  apply newBlock_cases in Hnew.
  destruct Hnew as [Halign [(Hnil & -> & ->)|[(k & Hloop & ->)|Happend]]].
  - rewrite Hnil. simpl. split; [|lia]. split.
    + intros [|i] a Ha; [|discriminate]. injection Ha as <-. simpl. lia.
    + intros [|i] a b Ha Hb; discriminate.
  - apply newBlock_loop_stop in Hloop.
    destruct Hloop as (old & Hold & Hfree & Hfits & Hblock).
    pose proof Hchained as [Hfields Hchain].
    destruct (Hfields _ _ Hold) as [Hosize Hopointer].
    rewrite length_insert.
    destruct k as [|j].
    + subst block. simpl. split; [|lia].
      apply chained_insert; simpl; auto; [discriminate|].
      intros nextBlock Hnext. specialize (Hchain _ _ _ Hold Hnext).
      unfold nextPointer, nextPointerWith in *. simpl. lia.
    + destruct Hblock as (prevBlock & Hprev & -> & Hnext).
      destruct (Hfields _ _ Hprev) as [Hpsize Hppointer].
      pose proof (alignPointer_ge (nextPointer prevBlock) align Halign)
        as Haligned.
      assert (1 <= alignPointer (nextPointer prevBlock) align) as Hpos
        by (unfold nextPointer, nextPointerWith in *; lia).
      simpl. split; [|lia].
      apply chained_insert; simpl; auto.
      intros j' prevBlock' [= <-] Hprev'.
      rewrite Hprev in Hprev'. injection Hprev' as <-. exact Haligned.
  - destruct Happend as (lastBlock & _ & Hlast & -> & ->).
    pose proof Hchained as [Hfields _].
    pose proof Hlast as Hlookup. rewrite last_lookup in Hlookup.
    destruct (Hfields _ _ Hlookup) as [Hlsize Hlpointer].
    pose proof (alignPointer_ge (nextPointer lastBlock) align Halign)
      as Haligned.
    rewrite length_app. unfold AllocBlock.new. simpl.
    split; [eapply chained_app; eauto|].
    unfold nextPointer, nextPointerWith in *. lia.
Qed.

(** [dealloc] changes one flag: addresses and sizes stay, and so does
    the number of blocks. *)
Lemma dealloc_blocks_layout blocks pointer' size' align blocks' :
  dealloc_blocks blocks pointer' size' align = Ok blocks' ->
  Forall2 (fun a b => pointer b = pointer a /\ size b = size a)
          blocks blocks'.
Proof.
  revert blocks'.
  induction blocks as [|block rest IH]; intros blocks' Hdealloc;
    simpl in Hdealloc; [discriminate|].
  destruct (pointer block =? pointer').
  - destruct (negb (used block)); [discriminate|].
    destruct (negb (size block =? size')); [discriminate|].
    injection Hdealloc as <-. constructor; [auto|].
    apply Forall2_same_length_lookup_2; [reflexivity|].
    intros i a b Ha Hb. rewrite Ha in Hb. injection Hb as ->. auto.
  - destruct (dealloc_blocks rest pointer' size' align) as [rest'|];
      [|discriminate].
    injection Hdealloc as <-. constructor; auto.
Qed.

Lemma chained_layout blocks blocks' :
  Forall2 (fun a b => pointer b = pointer a /\ size b = size a)
          blocks blocks' ->
  chained blocks -> chained blocks'.
Proof.
  intros Hlayout [Hfields Hchain]. split.
  - intros i b Hb.
    destruct (Forall2_lookup_r _ _ _ _ _ Hlayout Hb)
      as (a & Ha & Hpointer & Hsize).
    rewrite Hpointer, Hsize. eauto.
  - intros i b d Hb Hd.
    destruct (Forall2_lookup_r _ _ _ _ _ Hlayout Hb)
      as (a & Ha & Hpointer & Hsize).
    destruct (Forall2_lookup_r _ _ _ _ _ Hlayout Hd)
      as (c & Hc & Hpointer' & _).
    specialize (Hchain _ _ _ Ha Hc).
    unfold nextPointer, nextPointerWith in *.
    rewrite Hpointer, Hsize, Hpointer'. exact Hchain.
Qed.

Lemma call_chained self c address self' :
  chained (blocks self) -> valid c ->
  call self c = Ok (address, self') ->
  chained (blocks self') /\
  (forall p, address = Some p -> 1 <= p) /\
  (List.length (blocks self) <= List.length (blocks self'))%nat.
Proof.
  intros Hchained Hvalid Hcall. destruct c as [size align|p size align].
  - destruct Hvalid as [Hsize _]. simpl in Hcall. unfold alloc in Hcall.
    destruct (newBlock self size align) as [[block self'']|] eqn:Hnew;
      [|discriminate].
    injection Hcall as <- <-.
    destruct (newBlock_chained _ _ _ _ _ Hchained Hsize Hnew)
      as (? & ? & ?).
    split; [assumption|]. split; [|assumption].
    intros p [= <-]. assumption.
  - simpl in Hcall. unfold dealloc in Hcall.
    destruct (dealloc_blocks _ _ _ _) as [blocks'|] eqn:Hdealloc;
      [|discriminate].
    injection Hcall as <- <-. simpl.
    apply dealloc_blocks_layout in Hdealloc.
    split; [eapply chained_layout; eauto|]. split; [discriminate|].
    apply Forall2_length in Hdealloc. lia.
Qed.

Lemma run_chained calls : forall self addresses self',
  chained (blocks self) -> Forall valid calls ->
  run calls self = Ok (addresses, self') ->
  chained (blocks self') /\
  Forall (fun p => 1 <= p) addresses /\
  (List.length (blocks self) <= List.length (blocks self'))%nat.
Proof.
  induction calls as [|c calls IH]; intros self addresses self'
    Hchained Hvalid Hrun; simpl in Hrun.
  - injection Hrun as <- <-. auto.
  - apply Forall_cons in Hvalid. destruct Hvalid as [Hc Hcalls].
    destruct (call self c) as [[address self1]|] eqn:Hcall;
      [|discriminate].
    simpl in Hrun.
    destruct (run calls self1) as [[addresses1 self2]|] eqn:Hrest;
      [|discriminate].
    injection Hrun as <- <-.
    destruct (call_chained _ _ _ _ Hchained Hc Hcall)
      as (Hchained1 & Haddress & Hlength).
    destruct (IH _ _ _ Hchained1 Hcalls Hrest)
      as (Hchained2 & Haddresses & Hlength').
    split; [assumption|]. split; [|lia].
    apply Forall_app. split; [|assumption].
    destruct address as [p|]; simpl; auto.
Qed.

(** No call takes a block off the list, valid or not. *)
Lemma call_length self c address self' :
  call self c = Ok (address, self') ->
  (List.length (blocks self) <= List.length (blocks self'))%nat.
Proof.
  intros Hcall. destruct c as [size align|p size align]; simpl in Hcall.
  - unfold alloc in Hcall.
    destruct (newBlock self size align) as [[block self'']|] eqn:Hnew;
      [|discriminate].
    injection Hcall as <- <-. apply newBlock_cases in Hnew.
    destruct Hnew as [_ [(-> & _ & ->)|[(k & _ & ->)|(b & _ & _ & _ & ->)]]].
    + simpl. lia.
    + rewrite length_insert. lia.
    + rewrite length_app. lia.
  - unfold dealloc in Hcall.
    destruct (dealloc_blocks _ _ _ _) as [blocks'|] eqn:Hdealloc;
      [|discriminate].
    injection Hcall as <- <-. simpl.
    apply dealloc_blocks_layout, Forall2_length in Hdealloc. lia.
Qed.

Lemma run_length calls : forall self addresses self',
  run calls self = Ok (addresses, self') ->
  (List.length (blocks self) <= List.length (blocks self'))%nat.
Proof.
  induction calls as [|c calls IH]; intros self addresses self' Hrun;
    simpl in Hrun.
  - injection Hrun as <- <-. lia.
  - destruct (call self c) as [[address self1]|] eqn:Hcall; [|discriminate].
    simpl in Hrun.
    destruct (run calls self1) as [[addresses1 self2]|] eqn:Hrest;
      [|discriminate].
    injection Hrun as <- <-.
    apply call_length in Hcall. apply IH in Hrest. lia.
Qed.

End Allocator.

(** ** The allocator: [alloc] and [dealloc] *)

Section AllocatorClaims.

Import AllocBlock AllocModule.

(** C4: on an allocator whose block list is empty, [alloc(size, A)] with
    [A >= 1] creates the first block at address [A], marks it used and
    returns exactly [A], which is not 0. *)
Theorem alloc_on_empty self size A :
  blocks self = [] -> 1 <= A ->
  alloc self size A =
    Ok (A, {| blocks := [{| pointer := A; size := size; used := true |}] |})
  /\ A <> 0.
Proof.
  intros Hempty HA. split; [|lia].
  unfold alloc, newBlock. rewrite Hempty.
  destruct (A <? 1) eqn:Hlt; [apply Z.ltb_lt in Hlt; lia|].
  reflexivity.
Qed.

Lemma alloc_on_empty_witness :
  alloc AllocModule.new 24 8 =
    Ok (8, {| blocks := [{| pointer := 8; size := 24; used := true |}] |})
  /\ 8 <> 0.
Proof. apply (alloc_on_empty AllocModule.new 24 8); [reflexivity|lia]. Defined.

(** C5, as the claim has it, does not hold: the exception that [alloc]
    throws for an alignment below 1 is not of kind [Fatal]. *)
Lemma alloc_alignment_fault_is_not_Fatal :
  ~ (forall self size align,
       align < 1 ->
       exists e, alloc self size align = Throw e /\ kindOf e = Some Fatal).
Proof.
  intros Hclaim.
  destruct (Hclaim AllocModule.new 8 0 ltac:(lia)) as (e & He & Hkind).
  vm_compute in He. injection He as <-. discriminate.
Qed.

(** C5, amended: with [align < 1], [alloc] throws, whatever the block list
    holds and before it is looked at: the exception is the built-in
    [TypeError] with the message [alignment cannot be less than 1], which
    is not a [FatalError] and is of no kind of the taxonomy. *)
Theorem alloc_alignment_fault self size align :
  align < 1 ->
  alloc self size align =
    Throw (TypeError (Thrown (lit "alignment cannot be less than 1")))
  /\ forall e,
       alloc self size align = Throw e ->
       kindOf e = None /\ forall message, e <> FatalError message.
Proof.
  intros Halign.
  assert (alloc self size align =
          Throw (TypeError (Thrown (lit "alignment cannot be less than 1"))))
    as Hthrow.
  { unfold alloc, newBlock. apply Z.ltb_lt in Halign. rewrite Halign.
    reflexivity. }
  split; [exact Hthrow|].
  intros e He. rewrite Hthrow in He. injection He as <-.
  split; [reflexivity|discriminate].
Qed.

Lemma alloc_alignment_fault_witness :
  alloc {| blocks := [{| pointer := 4; size := 8; used := false |}] |} 8 0 =
    Throw (TypeError (Thrown (lit "alignment cannot be less than 1")))
  /\ forall e,
       alloc {| blocks := [{| pointer := 4; size := 8; used := false |}] |}
         8 0 = Throw e ->
       kindOf e = None /\ forall message, e <> FatalError message.
Proof.
  apply (alloc_alignment_fault
           {| blocks := [{| pointer := 4; size := 8; used := false |}] |}
           8 0).
  lia.
Defined.

(** C2: after any sequence of valid calls to [alloc] and [dealloc] on a new
    allocator, the blocks are in ascending order of address, the used
    blocks share no address, every address [alloc] returned is not 0, and
    however the run goes on from there the list does not get shorter. *)
Theorem alloc_dealloc_invariants calls addresses self :
  Forall valid calls ->
  run calls AllocModule.new = Ok (addresses, self) ->
  ascending (blocks self) /\
  used_disjoint (blocks self) /\
  Forall (fun address => address <> 0) addresses /\
  forall calls' addresses' self',
    run calls' self = Ok (addresses', self') ->
    (List.length (blocks self) <= List.length (blocks self'))%nat.
Proof.
  intros Hvalid Hrun.
  destruct (run_chained calls AllocModule.new _ _ chained_nil Hvalid Hrun)
    as (Hchained & Haddresses & _).
  split; [apply chained_ascending; assumption|].
  split; [apply chained_used_disjoint; assumption|].
  split.
  - eapply Forall_impl; [exact Haddresses|]. simpl. intros. lia.
  - intros calls' addresses' self' Hrun'.
    eapply run_length; eassumption.
Qed.

Lemma alloc_dealloc_invariants_witness :
  let self :=
    {| blocks := [{| pointer := 4; size := 8; used := true |};
                  {| pointer := 12; size := 8; used := true |}] |} in
  ascending (blocks self) /\
  used_disjoint (blocks self) /\
  Forall (fun address => address <> 0) [4; 12; 4] /\
  forall calls' addresses' self',
    run calls' self = Ok (addresses', self') ->
    (List.length (blocks self) <= List.length (blocks self'))%nat.
Proof.
  apply (alloc_dealloc_invariants
           [CallAlloc 8 4; CallAlloc 8 4; CallDealloc 4 8 4; CallAlloc 8 4]).
  - repeat constructor; simpl; lia.
  - reflexivity.
Defined.

(** The scan starts at the first block and steps over a block in use. *)
Lemma scan_reaches_first blocks size align :
  scan_reaches blocks size align 0.
Proof. unfold scan_reaches. rewrite Nat.sub_0_r. reflexivity. Qed.

Lemma scan_reaches_used blocks size align i block :
  scan_reaches blocks size align i ->
  blocks !! i = Some block -> used block = true ->
  scan_reaches blocks size align (S i).
Proof.
  unfold scan_reaches. intros -> Hblock Hused.
  apply lookup_lt_Some in Hblock as Hlt.
  replace (List.length blocks - i)%nat
    with (S (List.length blocks - S i)) by lia.
  simpl. rewrite Hblock, Hused. reflexivity.
Qed.

(** One iteration of the scan at a free block that is large enough and has
    a block before it. *)
Lemma newBlock_loop_step blocks size align i todo prevBlock block :
  blocks !! i = Some prevBlock ->
  blocks !! S i = Some block ->
  used block = false ->
  size <= AllocBlock.size block ->
  let candidate := alignPointer (nextPointer prevBlock) align in
  let reused := {| pointer := candidate; size := size; used := true |} in
  newBlock_loop blocks size align (S i) (S todo) =
    match blocks !! S (S i) with
    | Some nextBlock =>
        if pointer nextBlock <? nextPointerWith candidate size
        then newBlock_loop blocks size align (S (S i)) todo
        else Ok (Some (S i, reused))
    | None => Ok (Some (S i, reused))
    end.
Proof.
  intros Hprev Hblock Hfree Hfits. simpl.
  rewrite Hblock, Hfree, Hprev.
  apply Z.leb_le in Hfits. rewrite Hfits. reflexivity.
Qed.

(** The candidate is given up when its end is past the start of the block
    that follows. *)
Lemma rejects_when_past : rejects_when (fun start end_ => start < end_).
Proof.
  intros blocks size align i todo block prevBlock nextBlock
    Hprev Hblock Hnext Hfree Hfits Hpast.
  rewrite (newBlock_loop_step _ _ _ _ _ _ _ Hprev Hblock Hfree Hfits).
  rewrite Hnext. apply Z.ltb_lt in Hpast. rewrite Hpast. reflexivity.
Qed.

(** C3, as the claim has it, does not hold: a candidate whose end is
    exactly the start of the following block is taken, not given up. *)
Lemma rejects_when_reached_fails :
  ~ rejects_when (fun start end_ => start <= end_).
Proof.
  intros Hrejects.
  specialize (Hrejects
    [{| pointer := 4; size := 8; used := true |};
     {| pointer := 12; size := 8; used := false |};
     {| pointer := 20; size := 8; used := true |}]
    8 4 0%nat 1%nat
    {| pointer := 12; size := 8; used := false |}
    {| pointer := 4; size := 8; used := true |}
    {| pointer := 20; size := 8; used := true |}
    eq_refl eq_refl eq_refl eq_refl).
  simpl in Hrejects.
  specialize (Hrejects ltac:(lia) ltac:(vm_compute; discriminate)).
  vm_compute in Hrejects. discriminate.
Qed.

(** C3, amended: when the scan gets to a free block that is large enough
    and is not the first of the list, the candidate address is the end of
    the block before it rounded up to [align]; the scan goes on to the next
    block when a block follows and the candidate's end is past that
    block's start; otherwise, also when the candidate ends exactly where
    the following block starts, the block is overwritten in place with the
    candidate address and the size, marked used, and [alloc] returns the
    candidate address. *)
Theorem first_fit_reuse_after_previous self size align i prevBlock block :
  1 <= align ->
  blocks self !! i = Some prevBlock ->
  blocks self !! S i = Some block ->
  used block = false ->
  size <= AllocBlock.size block ->
  scan_reaches (blocks self) size align (S i) ->
  let candidate := alignPointer (nextPointer prevBlock) align in
  let reused := {| pointer := candidate; size := size; used := true |} in
  (forall nextBlock,
      blocks self !! S (S i) = Some nextBlock ->
      pointer nextBlock < nextPointerWith candidate size ->
      scan_reaches (blocks self) size align (S (S i)))
  /\
  ((forall nextBlock,
       blocks self !! S (S i) = Some nextBlock ->
       nextPointerWith candidate size <= pointer nextBlock) ->
   alloc self size align =
     Ok (candidate, {| blocks := <[S i := reused]> (blocks self) |})).
Proof.
  intros Halign Hprev Hblock Hfree Hfits Hreach candidate reused.
  unfold scan_reaches in *.
  apply lookup_lt_Some in Hblock as Hlt.
  replace (List.length (blocks self) - S i)%nat
    with (S (List.length (blocks self) - S (S i))) in Hreach by lia.
  rewrite (newBlock_loop_step _ _ _ _ _ _ _ Hprev Hblock Hfree Hfits)
    in Hreach.
  fold candidate in Hreach. fold reused in Hreach.
  split.
  - intros nextBlock Hnext Hpast. rewrite Hnext in Hreach.
    apply Z.ltb_lt in Hpast. rewrite Hpast in Hreach. exact Hreach.
  - intros Hroom.
    assert (newBlock_loop (blocks self) size align 0
              (List.length (blocks self)) = Ok (Some (S i, reused)))
      as Hstop.
    { rewrite Hreach.
      destruct (blocks self !! S (S i)) as [nextBlock|]; [|reflexivity].
      specialize (Hroom nextBlock eq_refl). apply Z.ltb_ge in Hroom.
      rewrite Hroom. reflexivity. }
    unfold alloc, newBlock.
    destruct (align <? 1) eqn:Hbad; [apply Z.ltb_lt in Hbad; lia|].
    assert ((0 <? List.length (blocks self))%nat = true) as ->
      by (apply Nat.ltb_lt; lia).
    rewrite Hstop. reflexivity.
Qed.

Lemma first_fit_reuse_after_previous_witness :
  alloc {| blocks := [{| pointer := 4; size := 8; used := true |};
                      {| pointer := 12; size := 8; used := false |};
                      {| pointer := 20; size := 8; used := true |}] |}
        8 4 =
    Ok (12, {| blocks := [{| pointer := 4; size := 8; used := true |};
                          {| pointer := 12; size := 8; used := true |};
                          {| pointer := 20; size := 8; used := true |}] |}).
Proof.
  apply (first_fit_reuse_after_previous
           {| blocks := [{| pointer := 4; size := 8; used := true |};
                         {| pointer := 12; size := 8; used := false |};
                         {| pointer := 20; size := 8; used := true |}] |}
           8 4 0%nat
           {| pointer := 4; size := 8; used := true |}
           {| pointer := 12; size := 8; used := false |});
    try reflexivity; simpl; try lia.
  intros nextBlock [= <-]. vm_compute. discriminate.
Defined.

End AllocatorClaims.

(** ** [dealloc]: the four outcomes *)

Section Dealloc.

Import AllocBlock AllocModule.

(** The blocks in front of the first one at [pointer] are stepped over and
    kept. *)
Lemma dealloc_blocks_app before blocks pointer' size' align :
  Forall (fun b => pointer b <> pointer') before ->
  dealloc_blocks (before ++ blocks) pointer' size' align =
    let* blocks := dealloc_blocks blocks pointer' size' align in
    Ok (before ++ blocks).
Proof.
  induction 1 as [|b before Hb _ IH]; simpl.
  - destruct (dealloc_blocks blocks pointer' size' align); reflexivity.
  - apply Z.eqb_neq in Hb. rewrite Hb, IH.
    destruct (dealloc_blocks blocks pointer' size' align); reflexivity.
Qed.

Lemma dealloc_unallocated self pointer' size' align :
  Forall (fun b => pointer b <> pointer') (blocks self) ->
  dealloc self pointer' size' align =
    Throw (FreeUnallocedError
             (message3 "tried to free unallocated memory "
                pointer' size' align)
             pointer' size' align).
Proof.
  intros Hnone. unfold dealloc.
  rewrite <- (app_nil_r (blocks self)).
  rewrite dealloc_blocks_app by assumption. reflexivity.
Qed.

Lemma dealloc_again self before block rest size' align :
  blocks self = before ++ block :: rest ->
  Forall (fun b => pointer b <> pointer block) before ->
  used block = false ->
  dealloc self (pointer block) size' align =
    Throw (FreeAgainError
             (message3 "tried to free again memory "
                (pointer block) size' align)
             (pointer block) size' align).
Proof.
  intros Hblocks Hbefore Hfree. unfold dealloc. rewrite Hblocks.
  rewrite dealloc_blocks_app by assumption. simpl.
  rewrite Z.eqb_refl, Hfree. reflexivity.
Qed.

Lemma dealloc_marks_free self before block rest align :
  blocks self = before ++ block :: rest ->
  Forall (fun b => pointer b <> pointer block) before ->
  used block = true ->
  dealloc self (pointer block) (size block) align =
    Ok {| blocks := before ++ release block :: rest |}.
Proof.
  intros Hblocks Hbefore Hused. unfold dealloc. rewrite Hblocks.
  rewrite dealloc_blocks_app by assumption. simpl.
  rewrite !Z.eqb_refl, Hused. reflexivity.
Qed.

(** A used block and a size that is not its own: the constructor of
    [FreeMismatchedSizeError] throws before the error exists. *)
Lemma dealloc_mismatched_size self before block rest size' align :
  blocks self = before ++ block :: rest ->
  Forall (fun b => pointer b <> pointer block) before ->
  used block = true ->
  size block <> size' ->
  dealloc self (pointer block) size' align =
    Throw (TypeError
             (NotCallable
                (lit "though the block was of size " ++
                 Number_toString (size block) ++ lit ") "))).
Proof.
  intros Hblocks Hbefore Hused Hsize. unfold dealloc. rewrite Hblocks.
  rewrite dealloc_blocks_app by assumption. simpl.
  apply Z.eqb_neq in Hsize. rewrite Z.eqb_refl, Hused, Hsize. reflexivity.
Qed.

(** C6, at the input where the program departs from it: freeing the block
    that [alloc(8, 4)] returned on a new allocator, with size 16, throws
    the engine's [TypeError] for calling a string, not an error of kind
    [FreeMismatchedSize]. *)
Theorem dealloc_mismatched_size_throws_TypeError :
  let self := {| blocks := [{| pointer := 4; size := 8; used := true |}] |} in
  alloc AllocModule.new 8 4 = Ok (4, self) /\
  dealloc self 4 16 4 =
    Throw (TypeError (NotCallable (lit "though the block was of size 8) ")))
  /\ (forall e,
        dealloc self 4 16 4 = Throw e ->
        kindOf e <> Some FreeMismatchedSize).
Proof.
  simpl. split; [reflexivity|].
  assert (dealloc
            {| blocks := [{| pointer := 4; size := 8; used := true |}] |}
            4 16 4 =
          Throw (TypeError
                   (NotCallable (lit "though the block was of size 8) "))))
    as Hthrow by reflexivity.
  split; [exact Hthrow|].
  intros e He. rewrite Hthrow in He. injection He as <-. discriminate.
Qed.

End Dealloc.

(** ** [realloc] *)

Section Realloc.

Import AllocBlock AllocModule.

Lemma realloc_loop_app before blocks i pointer' size' align :
  Forall (fun b => pointer b <> pointer') before ->
  realloc_loop (before ++ blocks) i pointer' size' align =
    realloc_loop blocks (i + List.length before) pointer' size' align.
Proof.
  intros Hbefore. revert i.
  induction Hbefore as [|b before Hb _ IH]; intros i; simpl.
  - rewrite Nat.add_0_r. reflexivity.
  - apply Z.eqb_neq in Hb. rewrite Hb, IH. f_equal. lia.
Qed.

(** With two different sizes the block list is searched: an address that no
    block has is refused, and so is one whose first block is free. *)
Lemma realloc_unallocated runner self pointer' size' align newSize :
  size' <> newSize ->
  Forall (fun b => pointer b <> pointer') (blocks self) ->
  realloc runner self pointer' size' align newSize =
    Throw (ReallocUnallocedError
             (message3 "tried to reallocate unallocated memory "
                pointer' size' align)
             pointer' size' align).
Proof.
  intros Hsizes Hnone. unfold realloc.
  apply Z.eqb_neq in Hsizes. rewrite Hsizes.
  rewrite <- (app_nil_r (blocks self)).
  rewrite realloc_loop_app by assumption. reflexivity.
Qed.

Lemma realloc_freed runner self before block rest size' align newSize :
  size' <> newSize ->
  blocks self = before ++ block :: rest ->
  Forall (fun b => pointer b <> pointer block) before ->
  used block = false ->
  realloc runner self (pointer block) size' align newSize =
    Throw (ReallocFreedError
             (message3 "tried to reallocate freed memory "
                (pointer block) size' align)
             (pointer block) size' align).
Proof.
  intros Hsizes Hblocks Hbefore Hfree. unfold realloc.
  apply Z.eqb_neq in Hsizes. rewrite Hsizes, Hblocks.
  rewrite realloc_loop_app by assumption. simpl.
  rewrite Z.eqb_refl, Hfree. reflexivity.
Qed.

(** The two arrays [realloc] makes are empty and own their storage, so that
    copying one into the other writes nothing: the guest's memory is after
    [realloc] what it was before. *)
Lemma realloc_memory_untouched
    runner self pointer' size' align newSize address self' runner' :
  realloc runner self pointer' size' align newSize =
    Ok (address, self', runner') ->
  Runner.memory_export runner' = Runner.memory_export runner.
Proof.
  unfold realloc. intros Hrealloc.
  destruct (size' =? newSize); [congruence|].
  destruct (realloc_loop _ _ _ _ _) as [[i|]|]; simpl in Hrealloc;
    try discriminate.
  unfold Runner.memory in Hrealloc.
  destruct (Runner.memory_export runner) as [[buffer]|]; simpl in Hrealloc;
    [|discriminate].
  destruct (newBlock _ _ _) as [[newBlock self'']|]; simpl in Hrealloc;
    [|discriminate].
  injection Hrealloc as <- <- <-. reflexivity.
Qed.

(** C7: for a live block at [p] of size [n], [realloc(p, n, a, n)] returns
    [p] and leaves everything as it is: every block's address, size and
    flag, and the guest's memory. *)
Theorem realloc_same_size_live runner self p n a i block :
  blocks self !! i = Some block ->
  pointer block = p -> size block = n -> used block = true ->
  realloc runner self p n a n = Ok (p, self, runner).
Proof.
  intros _ _ _ _. unfold realloc. rewrite Z.eqb_refl. reflexivity.
Qed.

Lemma realloc_same_size_live_witness :
  let runner :=
    {| Runner.textDecoder := fun _ => [];
       Runner.memory_export :=
         Some {| Memory.buffer := [0; 0; 0; 0; 1; 2; 3; 4] |} |} in
  let self := {| blocks := [{| pointer := 4; size := 4; used := true |}] |} in
  realloc runner self 4 4 4 4 = Ok (4, self, runner).
Proof.
  apply (realloc_same_size_live _ _ 4 4 4 0%nat
           {| pointer := 4; size := 4; used := true |});
    reflexivity.
Defined.

(** C10: [realloc(p, n, a, n)] returns [p] for every [p], [n] and [a] and
    every state of the allocator, the block list not being looked at: no
    exception is thrown, of kind [ReallocUnallocated], [ReallocFreed] or
    any other, also when no block is at [p] or the block at [p] is free. *)
Theorem realloc_same_size_skips_lookup runner self p n a :
  realloc runner self p n a n = Ok (p, self, runner)
  /\ (forall e, realloc runner self p n a n <> Throw e)
  /\ (forall other, realloc runner other p n a n = Ok (p, other, runner)).
Proof.
  assert (forall s, realloc runner s p n a n = Ok (p, s, runner)) as Hsame.
  { intros s. unfold realloc. rewrite Z.eqb_refl. reflexivity. }
  split; [apply Hsame|]. split; [|apply Hsame].
  intros e. rewrite Hsame. discriminate.
Qed.

(** C1, at an input where the program departs from it: after [alloc(4, 4)]
    and [alloc(4, 4)] on a new allocator, [realloc(4, 4, 4, 8)] returns 12,
    and the four bytes that were at address 4 are not the four bytes at
    address 12: the guest's memory has not been written to. *)
Theorem realloc_moves_no_data :
  let memory :=
    [0; 0; 0; 0; 1; 2; 3; 4; 5; 6; 7; 8; 9; 9; 9; 9; 9; 9; 9; 9] in
  let runner :=
    {| Runner.textDecoder := fun _ => [];
       Runner.memory_export := Some {| Memory.buffer := memory |} |} in
  let self :=
    {| blocks := [{| pointer := 4; size := 4; used := true |};
                  {| pointer := 8; size := 4; used := true |}] |} in
  run [CallAlloc 4 4; CallAlloc 4 4] AllocModule.new = Ok ([4; 8], self) /\
  realloc runner self 4 4 4 8 =
    Ok (12,
        {| blocks := [{| pointer := 4; size := 4; used := false |};
                      {| pointer := 8; size := 4; used := true |};
                      {| pointer := 12; size := 8; used := true |}] |},
        runner) /\
  Uint8Array.elements (Uint8Array.View 4 4) memory = [1; 2; 3; 4] /\
  Uint8Array.elements (Uint8Array.View 12 4) memory = [9; 9; 9; 9].
Proof. repeat split. Qed.

End Realloc.

(** ** The panic bridge *)

Section Panic.

Import PanicModule.

Lemma panic_call_keeps_message runner self c self' :
  is_fragment c = false ->
  panic_call runner self c = Ok self' ->
  message self' = message self.
Proof.
  destruct c as [ch|pointer length|pointer length|line' column'];
    simpl; intros Hfragment Hcall; try discriminate.
  - unfold panic_put_file in Hcall.
    destruct (Runner.decodeUtf8 runner pointer length); [|discriminate].
    injection Hcall as <-. reflexivity.
  - injection Hcall as <-. reflexivity.
Qed.

Lemma panic_calls_keep_message runner calls : forall self self',
  Forall (fun c => is_fragment c = false) calls ->
  panic_calls runner calls self = Ok self' ->
  message self' = message self.
Proof.
  induction calls as [|c calls IH]; intros self self' Hnone Hcalls;
    simpl in Hcalls.
  - injection Hcalls as <-. reflexivity.
  - apply Forall_cons in Hnone. destruct Hnone as [Hc Hnone].
    destruct (panic_call runner self c) as [self1|] eqn:Hcall;
      [|discriminate].
    simpl in Hcalls.
    rewrite (IH _ _ Hnone Hcalls).
    eapply panic_call_keeps_message; eassumption.
Qed.

(** What [panic_ch] does to the message: the decimal text of its argument
    goes at the end. *)
Lemma panic_ch_message self ch :
  message (panic_ch self ch) = message self ++ Number_toString ch.
Proof. reflexivity. Qed.

(** C8: on a bridge that has been sent no fragment of a message, [panic()]
    throws a panic whose message is [<no message, {file}:{line}:{column}>]
    with the file, or [?] when none was set, the line and the column, which
    it carries as they are; when nothing at all was sent, the message is
    [<no message, ?:0:0>], the file [?], the line 0 and the column 0. *)
Theorem panic_without_message runner calls self :
  Forall (fun c => is_fragment c = false) calls ->
  panic_calls runner calls PanicModule.new = Ok self ->
  let file := default (lit "?") (PanicModule.file self) in
  panic self =
    Throw (WasmPanicError
             (lit "<no message, " ++ file ++ lit ":" ++
              Number_toString (line self) ++ lit ":" ++
              Number_toString (column self) ++ lit ">")
             file (line self) (column self))
  /\ (calls = [] ->
      panic self =
        Throw (WasmPanicError (lit "<no message, ?:0:0>") (lit "?") 0 0)).
Proof.
  intros Hnone Hcalls file'.
  pose proof (panic_calls_keep_message _ _ _ _ Hnone Hcalls) as Hmessage.
  simpl in Hmessage. split.
  - unfold panic. rewrite Hmessage. subst file'.
    destruct (PanicModule.file self); reflexivity.
  - intros ->. simpl in Hcalls. injection Hcalls as <-. reflexivity.
Qed.

Lemma panic_without_message_witness :
  panic {| message := []; file := None; line := 12; column := 7 |} =
    Throw (WasmPanicError (lit "<no message, ?:12:7>") (lit "?") 12 7).
Proof.
  refine (proj1 (panic_without_message
                   {| Runner.textDecoder := fun _ => [];
                      Runner.memory_export := None |}
                   [PanicPutLineColumn 12 7]
                   {| message := []; file := None; line := 12; column := 7 |}
                   _ _)).
  - repeat constructor.
  - reflexivity.
Defined.

(** The decimal text of a number that is not negative is made of the
    digits [0] to [9], which are the code units 48 to 57. *)
Lemma string_of_uint_digits d :
  Forall (fun u => (48 <= u <= 57)%N)
         (lit (DecimalString.NilEmpty.string_of_uint d)).
Proof.
  induction d; simpl; constructor; simpl; try lia; assumption.
Qed.

Lemma Number_toString_digits n :
  0 <= n -> Forall (fun u => (48 <= u <= 57)%N) (Number_toString n).
Proof.
  intros Hn. unfold Number_toString.
  destruct n as [|p|p]; [repeat constructor; simpl; lia| |lia].
  simpl. unfold DecimalString.NilZero.string_of_uint.
  pose proof (string_of_uint_digits (Pos.to_uint p)) as Hdigits.
  destruct (Pos.to_uint p); try exact Hdigits.
  repeat constructor; simpl; lia.
Qed.

(** For no code point is the text [panic_ch] appends the character that
    [String.fromCodePoint] makes of it. *)
Lemma panic_ch_never_the_character self code ch :
  String_fromCodePoint code = Ok ch ->
  message (panic_ch self code) <> message self ++ ch.
Proof.
  intros Hch Hsame. rewrite panic_ch_message in Hsame.
  apply app_inv_head in Hsame.
  unfold String_fromCodePoint in Hch.
  destruct ((code <? 0) || (1114111 <? code)) eqn:Hrange; [discriminate|].
  apply orb_false_iff in Hrange. destruct Hrange as [Hlow _].
  apply Z.ltb_ge in Hlow.
  pose proof (Number_toString_digits code Hlow) as Hdigits.
  rewrite Hsame in Hdigits.
  destruct (code <? 65536) eqn:Hbmp; injection Hch as <-.
  - apply Forall_cons in Hdigits. destruct Hdigits as [Hunit _].
    assert (code = 48 \/ code = 49 \/ code = 50 \/ code = 51 \/ code = 52 \/
            code = 53 \/ code = 54 \/ code = 55 \/ code = 56 \/ code = 57)
      as Hcases by lia.
    repeat (destruct Hcases as [->|Hcases]; [discriminate|]).
    subst code. discriminate.
  - apply Forall_cons in Hdigits. destruct Hdigits as [Hunit _].
    apply Z.ltb_ge in Hbmp.
    pose proof (Z.div_pos (code - 65536) 1024 ltac:(lia) ltac:(lia)).
    lia.
Qed.

(** C9, at an input where the program departs from it: [panic_ch(65)] on a
    new bridge leaves the message [65], two characters, where the debug
    bridge's [dblog_ch(65)] logs the one character [A] whose code point is
    65. *)
Theorem panic_ch_appends_decimal_text :
  message (panic_ch PanicModule.new 65) = lit "65" /\
  List.length (message (panic_ch PanicModule.new 65)) = 2%nat /\
  String_fromCodePoint 65 = Ok (lit "A") /\
  DebugModule.dblog_ch DebugModule.new 65 =
    Ok {| DebugModule.dblog := [lit "A"] |} /\
  message (panic_ch PanicModule.new 65) <> lit "A".
Proof. repeat split. discriminate. Qed.

End Panic.

(** * Further properties of the allocator *)

Section AllocatorMore.

Import AllocBlock AllocModule.

(** No multiple of the alignment lies between an address and the address
    rounded up. *)
Lemma alignPointer_le_multiple address align m :
  1 <= align -> (align | m) -> address <= m ->
  alignPointer address align <= m.
Proof.
  intros Halign [k ->] Hge.
  pose proof (alignPointer_lt address align Halign) as Hlt.
  destruct (alignPointer_multiple address align Halign) as [q Hq].
  rewrite Hq in *.
  destruct (Z_lt_le_dec k q) as [Hkq|Hqk].
  - assert ((k + 1) * align <= q * align)
      by (apply Z.mul_le_mono_nonneg_r; lia).
    lia.
  - apply Z.mul_le_mono_nonneg_r; lia.
Qed.

Lemma alignPointer_aligned address align :
  1 <= align -> (align | address) -> alignPointer address align = address.
Proof.
  intros Halign Hdiv.
  pose proof (alignPointer_ge address align Halign).
  pose proof (alignPointer_le_multiple address align address Halign Hdiv).
  lia.
Qed.

(** X1: for an alignment of at least 1, [alignPointer] gives the least
    multiple of the alignment that is not below the address; an address
    that is a multiple already is returned as it is, so that rounding up
    twice is rounding up once. *)
Theorem alignPointer_least_multiple address align :
  1 <= align ->
  (align | alignPointer address align) /\
  address <= alignPointer address align /\
  (forall m, (align | m) -> address <= m -> alignPointer address align <= m)
  /\ ((align | address) -> alignPointer address align = address) /\
  alignPointer (alignPointer address align) align =
    alignPointer address align.
Proof.
  intros Halign.
  split; [apply alignPointer_multiple; assumption|].
  split; [apply alignPointer_ge; assumption|].
  split; [intros m; apply alignPointer_le_multiple; assumption|].
  split; [apply alignPointer_aligned; assumption|].
  apply alignPointer_aligned; [assumption|].
  apply alignPointer_multiple; assumption.
Qed.

Lemma alignPointer_least_multiple_witness :
  (8 | alignPointer 13 8) /\
  13 <= alignPointer 13 8 /\
  (forall m, (8 | m) -> 13 <= m -> alignPointer 13 8 <= m) /\
  ((8 | 13) -> alignPointer 13 8 = 13) /\
  alignPointer (alignPointer 13 8) 8 = alignPointer 13 8.
Proof. apply (alignPointer_least_multiple 13 8). lia. Defined.

(** The entry [newBlock] writes: it holds the returned block, which is
    used and has the requested size; the entry was free or did not exist
    before, and no other entry changes. *)
Lemma newBlock_entry self size align block self' :
  newBlock self size align = Ok (block, self') ->
  exists k,
    blocks self' !! k = Some block /\
    block = {| pointer := pointer block; size := size; used := true |} /\
    (forall j, j <> k -> blocks self' !! j = blocks self !! j) /\
    (forall old, blocks self !! k = Some old -> used old = false) /\
    (k <= List.length (blocks self))%nat /\
    List.length (blocks self') =
      (if decide (k = List.length (blocks self))
       then S (List.length (blocks self))
       else List.length (blocks self)).
Proof.
  intros Hnew. apply newBlock_cases in Hnew.
  destruct Hnew as [_ [(Hnil & -> & ->)|[(k & Hloop & ->)|Happend]]].
  - exists 0%nat. rewrite Hnil. simpl. repeat split; auto.
    + intros [|j] Hj; [lia|reflexivity].
    + discriminate.
  - apply newBlock_loop_stop in Hloop.
    destruct Hloop as (old & Hold & Hfree & _ & Hblock).
    apply lookup_lt_Some in Hold as Hlt.
    exists k. split; [apply list_lookup_insert_eq; assumption|].
    split.
    { destruct k as [|j]; [subst block; reflexivity|].
      destruct Hblock as (prevBlock & _ & -> & _). reflexivity. }
    split; [intros j Hj; apply list_lookup_insert_ne; auto|].
    split; [intros old' Hold'; congruence|].
    split; [lia|].
    rewrite length_insert. destruct (decide _); [lia|reflexivity].
  - destruct Happend as (lastBlock & _ & _ & -> & ->).
    exists (List.length (blocks self)).
    split; [apply list_lookup_middle; reflexivity|].
    split; [reflexivity|].
    split.
    { intros j Hj.
      destruct (decide (j < List.length (blocks self))%nat).
      - apply lookup_app_l; assumption.
      - rewrite !lookup_ge_None_2; [reflexivity|lia|].
        rewrite length_app. simpl. lia. }
    split.
    { intros old Hold. apply lookup_lt_Some in Hold. lia. }
    split; [lia|].
    rewrite length_app. simpl. destruct (decide _); lia.
Qed.

(** X2: with an alignment of at least 1, [alloc] does not throw, whatever
    the block list holds; the address it returns is that of one entry of
    the list, which is then in use with the requested size, and every
    other entry is as it was: the list gets longer by that entry or keeps
    its length. *)
Theorem alloc_writes_one_entry self size align :
  1 <= align ->
  exists address self' k,
    alloc self size align = Ok (address, self') /\
    blocks self' !! k =
      Some {| pointer := address; size := size; used := true |} /\
    (forall j, j <> k -> blocks self' !! j = blocks self !! j) /\
    (List.length (blocks self) <= List.length (blocks self') <=
       S (List.length (blocks self)))%nat.
Proof.
  intros Halign.
  destruct (alloc_returns self size align Halign) as (address & self' & Hok).
  exists address, self'. unfold alloc in Hok.
  destruct (newBlock self size align) as [[block self'']|] eqn:Hnew;
    [|discriminate].
  injection Hok as <- <-.
  destruct (newBlock_entry _ _ _ _ _ Hnew)
    as (k & Hk & Hblock & Hothers & _ & _ & Hlength).
  exists k. split; [unfold alloc; rewrite Hnew; reflexivity|].
  split; [rewrite Hk, Hblock at 1; reflexivity|].
  split; [assumption|].
  rewrite Hlength. destruct (decide _); lia.
Qed.

Lemma alloc_writes_one_entry_witness :
  exists address self' k,
    alloc {| blocks := [{| pointer := 4; size := 8; used := true |}] |} 3 2 =
      Ok (address, self') /\
    blocks self' !! k =
      Some {| pointer := address; size := 3; used := true |} /\
    (forall j, j <> k ->
       blocks self' !! j =
       [{| pointer := 4; size := 8; used := true |}] !! j) /\
    (1 <= List.length (blocks self') <= 2)%nat.
Proof.
  apply (alloc_writes_one_entry
           {| blocks := [{| pointer := 4; size := 8; used := true |}] |} 3 2).
  lia.
Defined.

(** X3: the address [alloc] returns is a multiple of the alignment, except
    when it is the address of the list's first block, free and large
    enough, which is reused where it is. *)
Theorem alloc_address_aligned self size align address self' :
  alloc self size align = Ok (address, self') ->
  (align | address) \/
  exists first,
    blocks self !! 0%nat = Some first /\ used first = false /\
    size <= AllocBlock.size first /\ address = pointer first.
Proof.
  unfold alloc. intros Halloc.
  destruct (newBlock self size align) as [[block self'']|] eqn:Hnew;
    [|discriminate].
  injection Halloc as <- <-. apply newBlock_cases in Hnew.
  destruct Hnew as [Halign [(_ & -> & _)|[(k & Hloop & _)|Happend]]].
  - left. simpl. exists 1. lia.
  - apply newBlock_loop_stop in Hloop.
    destruct Hloop as (old & Hold & Hfree & Hfits & Hblock).
    destruct k as [|j].
    + right. exists old. subst block. auto.
    + left. destruct Hblock as (prevBlock & _ & -> & _). simpl.
      apply alignPointer_multiple; assumption.
  - left. destruct Happend as (lastBlock & _ & _ & -> & _). simpl.
    apply alignPointer_multiple; assumption.
Qed.

Lemma alloc_address_aligned_witness :
  (8 | 16) \/
  exists first,
    [{| pointer := 4; size := 8; used := true |}] !! 0%nat = Some first /\
    used first = false /\ 5 <= AllocBlock.size first /\ 16 = pointer first.
Proof.
  apply (alloc_address_aligned
           {| blocks := [{| pointer := 4; size := 8; used := true |}] |}
           5 8 16
           {| blocks := [{| pointer := 4; size := 8; used := true |};
                         {| pointer := 16; size := 5; used := true |}] |}).
  reflexivity.
Defined.

(** X4: on a new allocator, an [alloc], the [dealloc] of its block and an
    [alloc] of no greater size return the same address twice, the first
    alignment, whatever the second alignment is: the address of the second
    block need not be a multiple of its alignment. *)
Theorem first_block_reuse_ignores_alignment size size' a1 a a2 :
  1 <= a1 -> 1 <= a2 -> size' <= size ->
  run [CallAlloc size a1; CallDealloc a1 size a; CallAlloc size' a2]
      AllocModule.new =
    Ok ([a1; a1],
        {| blocks := [{| pointer := a1; size := size'; used := true |}] |}).
Proof.
  intros Ha1 Ha2 Hsize. simpl. unfold alloc, newBlock. simpl.
  destruct (a1 <? 1) eqn:H1; [apply Z.ltb_lt in H1; lia|]. simpl.
  unfold dealloc. simpl. rewrite !Z.eqb_refl. simpl.
  destruct (a2 <? 1) eqn:H2; [apply Z.ltb_lt in H2; lia|]. simpl.
  apply Z.leb_le in Hsize. rewrite Hsize. reflexivity.
Qed.

Lemma first_block_reuse_ignores_alignment_witness :
  run [CallAlloc 8 4; CallDealloc 4 8 4; CallAlloc 8 16] AllocModule.new =
    Ok ([4; 4],
        {| blocks := [{| pointer := 4; size := 8; used := true |}] |})
  /\ ~ (16 | 4).
Proof.
  split.
  - apply (first_block_reuse_ignores_alignment 8 8 4 4 16); lia.
  - intros [k Hk]. lia.
Defined.

(** The scan finds nothing where every block is in use or too small. *)
Lemma newBlock_loop_nothing_fits blocks size align todo : forall i,
  Forall (fun b => used b = true \/ AllocBlock.size b < size) blocks ->
  (i + todo <= List.length blocks)%nat ->
  newBlock_loop blocks size align i todo = Ok None.
Proof.
  induction todo as [|todo IH]; intros i Hnone Hi; simpl; [reflexivity|].
  destruct (lookup_lt_is_Some_2 blocks i ltac:(lia)) as [block Hblock].
  rewrite Hblock.
  rewrite Forall_lookup in Hnone.
  destruct (Hnone _ _ Hblock) as [->|Hsmall].
  - apply IH; [rewrite Forall_lookup; assumption|lia].
  - destruct (used block); [apply IH; [rewrite Forall_lookup; assumption|lia]|].
    apply Z.leb_gt in Hsmall. rewrite Hsmall.
    apply IH; [rewrite Forall_lookup; assumption|lia].
Qed.

(** X5: where every block of a list that is not empty is in use or smaller
    than the requested size, [alloc] adds a block at the end of the list,
    at the end of the last block rounded up to the alignment, and leaves
    the blocks that were there as they are. *)
Theorem alloc_appends_when_nothing_fits self size align lastBlock :
  1 <= align ->
  last (blocks self) = Some lastBlock ->
  Forall (fun b => used b = true \/ AllocBlock.size b < size) (blocks self) ->
  alloc self size align =
    Ok (alignPointer (nextPointer lastBlock) align,
        {| blocks :=
             blocks self ++
             [{| pointer := alignPointer (nextPointer lastBlock) align;
                 size := size; used := true |}] |}).
Proof.
  intros Halign Hlast Hnone. unfold alloc, newBlock.
  destruct (align <? 1) eqn:Hbad; [apply Z.ltb_lt in Hbad; lia|].
  rewrite last_lookup in Hlast.
  apply lookup_lt_Some in Hlast as Hcount.
  assert ((0 <? List.length (blocks self))%nat = true) as ->
    by (apply Nat.ltb_lt; lia).
  rewrite newBlock_loop_nothing_fits by (assumption || lia). simpl.
  replace (List.length (blocks self) - 1)%nat
    with (Nat.pred (List.length (blocks self))) by lia.
  rewrite Hlast. reflexivity.
Qed.

Lemma alloc_appends_when_nothing_fits_witness :
  alloc {| blocks := [{| pointer := 4; size := 8; used := true |};
                      {| pointer := 12; size := 2; used := false |}] |}
        3 4 =
    Ok (16,
        {| blocks := [{| pointer := 4; size := 8; used := true |};
                      {| pointer := 12; size := 2; used := false |};
                      {| pointer := 16; size := 3; used := true |}] |}).
Proof.
  apply (alloc_appends_when_nothing_fits
           {| blocks := [{| pointer := 4; size := 8; used := true |};
                         {| pointer := 12; size := 2; used := false |}] |}
           3 4 {| pointer := 12; size := 2; used := false |}).
  - lia.
  - reflexivity.
  - repeat constructor; simpl; lia.
Defined.

(** X6: a first block that is free and large enough is reused where it is,
    whatever the alignment asked for and whatever follows it: it keeps
    its address and takes the requested size, which it does not get back
    when it is freed again. *)
Theorem alloc_reuses_first_block first rest size align :
  1 <= align -> used first = false -> size <= AllocBlock.size first ->
  alloc {| blocks := first :: rest |} size align =
    Ok (pointer first,
        {| blocks :=
             {| pointer := pointer first; size := size; used := true |}
             :: rest |}).
Proof.
  intros Halign Hfree Hfits. unfold alloc, newBlock.
  destruct (align <? 1) eqn:Hbad; [apply Z.ltb_lt in Hbad; lia|].
  simpl. rewrite Hfree. apply Z.leb_le in Hfits. rewrite Hfits.
  reflexivity.
Qed.

Lemma alloc_reuses_first_block_witness :
  alloc {| blocks := [{| pointer := 4; size := 8; used := false |};
                      {| pointer := 12; size := 8; used := false |}] |}
        2 32 =
    Ok (4,
        {| blocks := [{| pointer := 4; size := 2; used := true |};
                      {| pointer := 12; size := 8; used := false |}] |}).
Proof.
  apply (alloc_reuses_first_block
           {| pointer := 4; size := 8; used := false |}
           [{| pointer := 12; size := 8; used := false |}] 2 32);
    [lia|reflexivity|simpl; lia].
Defined.

(** X7: in a block list that is chained, [alloc] with a size that is not
    negative leaves every block in use as it is, at its place in the list,
    and the range it hands out shares no address with any of them. *)
Theorem alloc_keeps_live_blocks self size align address self' i b :
  chained (blocks self) -> 0 <= size ->
  alloc self size align = Ok (address, self') ->
  blocks self !! i = Some b -> used b = true ->
  blocks self' !! i = Some b /\
  forall x, covers b x -> ~ (address <= x < address + size).
Proof.
  unfold alloc. intros Hchained Hsize Halloc Hb Hused.
  destruct (newBlock self size align) as [[block self'']|] eqn:Hnew;
    [|discriminate].
  injection Halloc as <- ->.
  destruct (newBlock_chained _ _ _ _ _ Hchained Hsize Hnew)
    as (Hchained' & _ & _).
  destruct (newBlock_entry _ _ _ _ _ Hnew)
    as (k & Hk & Hblock & Hothers & Hfree & _ & _).
  assert (i <> k) as Hik.
  { intros ->. specialize (Hfree _ Hb). congruence. }
  assert (blocks self' !! i = Some b) as Hb'
    by (rewrite Hothers; assumption).
  split; [exact Hb'|].
  intros x [Hbx Hxb] [Hpx Hxp].
  assert (nextPointer block = pointer block + size) as Hend.
  { rewrite Hblock at 1. reflexivity. }
  destruct (decide (i < k)%nat) as [Hlt|Hge].
  - pose proof (chained_lt _ _ _ _ _ Hchained' Hlt Hb' Hk). lia.
  - assert (k < i)%nat as Hlt by lia.
    pose proof (chained_lt _ _ _ _ _ Hchained' Hlt Hk Hb'). lia.
Qed.

Lemma alloc_keeps_live_blocks_witness :
  [{| pointer := 4; size := 8; used := true |};
   {| pointer := 12; size := 3; used := true |}] !! 0%nat =
    Some {| pointer := 4; size := 8; used := true |} /\
  forall x,
    covers {| pointer := 4; size := 8; used := true |} x ->
    ~ (12 <= x < 12 + 3).
Proof.
  apply (alloc_keeps_live_blocks
           {| blocks := [{| pointer := 4; size := 8; used := true |}] |}
           3 4 12
           {| blocks := [{| pointer := 4; size := 8; used := true |};
                         {| pointer := 12; size := 3; used := true |}] |}
           0%nat {| pointer := 4; size := 8; used := true |});
    try reflexivity; [|lia].
  split.
  - intros [|j] c Hc; [|discriminate]. injection Hc as <-. simpl. lia.
  - intros [|j] c d Hc Hd; discriminate.
Defined.

End AllocatorMore.

(** * Further properties of [dealloc] *)

Section DeallocMore.

Import AllocBlock AllocModule.

(** The loop of [dealloc] stops at the first block with the address. *)
Lemma dealloc_blocks_find blocks pointer' size' align :
  dealloc_blocks blocks pointer' size' align =
    match list_find (fun b => pointer b = pointer') blocks with
    | None => throw_new (new_FreeUnallocedError pointer' size' align)
    | Some (i, block) =>
        if negb (used block) then
          throw_new (new_FreeAgainError pointer' size' align)
        else if negb (size block =? size') then
          throw_new (new_FreeMismatchedSizeError
                       pointer' size' align (size block))
        else Ok (<[i := release block]> blocks)
    end.
Proof.
  induction blocks as [|b rest IH]; simpl; [reflexivity|].
  destruct (decide (pointer b = pointer')) as [Heq|Hne].
  - apply Z.eqb_eq in Heq. rewrite Heq. reflexivity.
  - apply Z.eqb_neq in Hne. rewrite Hne, IH.
    destruct (list_find _ rest) as [[i block]|]; simpl; [|reflexivity].
    destruct (negb (used block)); [reflexivity|].
    destruct (negb (size block =? size')); reflexivity.
Qed.

(** X8: the first block of the list that has the address decides what
    [dealloc] does.  Without such a block it throws [FreeUnallocedError];
    when the block is free, [FreeAgainError]; when it is in use with
    another size, the [TypeError] that the constructor of
    [FreeMismatchedSizeError] runs into; otherwise that block, and no
    other, has its flag cleared, and the list keeps its length, addresses
    and sizes. *)
Theorem dealloc_first_match_decides self pointer' size' align :
  dealloc self pointer' size' align =
    match list_find (fun b => pointer b = pointer') (blocks self) with
    | None =>
        Throw (FreeUnallocedError
                 (message3 "tried to free unallocated memory "
                    pointer' size' align)
                 pointer' size' align)
    | Some (i, block) =>
        if negb (used block) then
          Throw (FreeAgainError
                   (message3 "tried to free again memory "
                      pointer' size' align)
                   pointer' size' align)
        else if negb (size block =? size') then
          Throw (TypeError
                   (NotCallable
                      (lit "though the block was of size " ++
                       Number_toString (size block) ++ lit ") ")))
        else
          Ok {| blocks :=
                  <[i := {| pointer := pointer block; size := size block;
                            used := false |}]> (blocks self) |}
    end.
Proof.
  unfold dealloc. rewrite dealloc_blocks_find.
  destruct (list_find _ (blocks self)) as [[i block]|]; [|reflexivity].
  destruct (negb (used block)); [reflexivity|].
  destruct (negb (size block =? size')); reflexivity.
Qed.

(** X9: once [dealloc] has freed the block at an address, a second call
    with that address throws [FreeAgainError], whatever size and
    alignment it is given. *)
Theorem dealloc_twice self pointer' size' align self' size'' align' :
  dealloc self pointer' size' align = Ok self' ->
  dealloc self' pointer' size'' align' =
    Throw (FreeAgainError
             (message3 "tried to free again memory "
                pointer' size'' align')
             pointer' size'' align').
Proof.
  unfold dealloc. rewrite !dealloc_blocks_find. intros Hfirst.
  destruct (list_find _ (blocks self)) as [[i block]|] eqn:Hfind;
    [|discriminate].
  destruct (negb (used block)); [discriminate|].
  destruct (negb (size block =? size')); [discriminate|].
  injection Hfirst as <-. simpl.
  apply list_find_Some in Hfind. destruct Hfind as (Hi & Hpointer & Hbefore).
  assert (list_find (fun b => pointer b = pointer')
            (<[i := release block]> (blocks self)) =
          Some (i, release block)) as ->.
  { apply list_find_Some. split.
    - apply list_lookup_insert_eq. eapply lookup_lt_Some; eassumption.
    - split; [exact Hpointer|].
      intros j y Hy Hj. rewrite list_lookup_insert_ne in Hy by lia.
      eauto. }
  reflexivity.
Qed.

Lemma dealloc_twice_witness :
  dealloc {| blocks := [{| pointer := 4; size := 8; used := false |}] |}
    4 8 4 =
    Throw (FreeAgainError (message3 "tried to free again memory " 4 8 4)
             4 8 4).
Proof.
  apply (dealloc_twice
           {| blocks := [{| pointer := 4; size := 8; used := true |}] |}
           4 8 4).
  reflexivity.
Defined.

(** X10: in a chained block list without a block of size 0, the block that
    an [alloc] of a positive size returns can be freed at once with that
    address and size: [dealloc] does not throw, and clears the flag of
    the very entry [alloc] wrote. *)
Theorem alloc_then_dealloc self size align address self' align' :
  chained (blocks self) ->
  Forall (fun b => 0 < AllocBlock.size b) (blocks self) ->
  0 < size ->
  alloc self size align = Ok (address, self') ->
  exists k,
    blocks self' !! k =
      Some {| pointer := address; size := size; used := true |} /\
    dealloc self' address size align' =
      Ok {| blocks :=
              <[k := {| pointer := address; size := size; used := false |}]>
                (blocks self') |}.
Proof.
  unfold alloc. intros Hchained Hpositive Hsize Halloc.
  destruct (newBlock self size align) as [[block self'']|] eqn:Hnew;
    [|discriminate].
  injection Halloc as <- ->.
  assert (0 <= size) as Hsize' by lia.
  destruct (newBlock_chained _ _ _ _ _ Hchained Hsize' Hnew)
    as (Hchained' & _ & _).
  destruct (newBlock_entry _ _ _ _ _ Hnew)
    as (k & Hk & Hblock & Hothers & _ & _ & _).
  exists k. split; [rewrite Hk, Hblock at 1; reflexivity|].
  unfold dealloc. rewrite dealloc_blocks_find.
  assert (list_find (fun b => pointer b = pointer block) (blocks self') =
          Some (k, block)) as ->.
  { apply list_find_Some. split; [exact Hk|]. split; [reflexivity|].
    intros j y Hy Hj.
    pose proof (chained_lt _ _ _ _ _ Hchained' Hj Hy Hk) as Hend.
    rewrite Hothers in Hy by lia.
    rewrite Forall_lookup in Hpositive. specialize (Hpositive _ _ Hy).
    unfold nextPointer, nextPointerWith in Hend. simpl in *. lia. }
  rewrite Hblock. simpl. rewrite Z.eqb_refl. reflexivity.
Qed.

Lemma alloc_then_dealloc_witness :
  exists k,
    [{| pointer := 4; size := 8; used := true |};
     {| pointer := 12; size := 3; used := true |}] !! k =
      Some {| pointer := 12; size := 3; used := true |} /\
    dealloc {| blocks := [{| pointer := 4; size := 8; used := true |};
                          {| pointer := 12; size := 3; used := true |}] |}
      12 3 1 =
      Ok {| blocks :=
              <[k := {| pointer := 12; size := 3; used := false |}]>
                [{| pointer := 4; size := 8; used := true |};
                 {| pointer := 12; size := 3; used := true |}] |}.
Proof.
  apply (alloc_then_dealloc
           {| blocks := [{| pointer := 4; size := 8; used := true |}] |}
           3 4 12
           {| blocks := [{| pointer := 4; size := 8; used := true |};
                         {| pointer := 12; size := 3; used := true |}] |} 1).
  - split.
    + intros [|j] c Hc; [|discriminate]. injection Hc as <-. simpl. lia.
    + intros [|j] c d Hc Hd; discriminate.
  - repeat constructor; simpl; lia.
  - lia.
  - reflexivity.
Defined.

(** X11: a block of size 0 hides the block allocated after it.  On a new
    allocator [alloc(0, a)] and [alloc(n, a)] both return [a]; freeing the
    second block, of size [n], then runs into the block of size 0, which is
    first in the list: [dealloc(a, n, _)] throws the [TypeError] of the
    size mismatch, and once the block of size 0 has been freed it throws
    [FreeAgainError]. *)
Theorem zero_size_block_hides_next a n align' :
  1 <= a -> n <> 0 ->
  let self :=
    {| blocks := [{| pointer := a; size := 0; used := true |};
                  {| pointer := a; size := n; used := true |}] |} in
  run [CallAlloc 0 a; CallAlloc n a] AllocModule.new = Ok ([a; a], self) /\
  dealloc self a n align' =
    Throw (TypeError
             (NotCallable (lit "though the block was of size 0) "))) /\
  forall self',
    dealloc self a 0 align' = Ok self' ->
    dealloc self' a n align' =
      Throw (FreeAgainError
               (message3 "tried to free again memory " a n align')
               a n align').
Proof.
  intros Ha Hn self. split; [|split].
  - simpl. unfold alloc, newBlock. simpl.
    destruct (a <? 1) eqn:Hbad; [apply Z.ltb_lt in Hbad; lia|]. simpl.
    unfold nextPointer, nextPointerWith. simpl.
    rewrite Z.add_0_r.
    rewrite alignPointer_aligned by (lia || (exists 1; lia)).
    reflexivity.
  - unfold dealloc. simpl. rewrite Z.eqb_refl. simpl.
    destruct n; [lia|reflexivity|reflexivity].
  - intros self' Hfreed. eapply eq_trans; [|reflexivity].
    unfold dealloc in *. simpl in *. rewrite Z.eqb_refl in *.
    simpl in Hfreed. injection Hfreed as <-. simpl.
    rewrite Z.eqb_refl. reflexivity.
Qed.

Lemma zero_size_block_hides_next_witness :
  run [CallAlloc 0 4; CallAlloc 8 4] AllocModule.new =
    Ok ([4; 4],
        {| blocks := [{| pointer := 4; size := 0; used := true |};
                      {| pointer := 4; size := 8; used := true |}] |}) /\
  dealloc {| blocks := [{| pointer := 4; size := 0; used := true |};
                        {| pointer := 4; size := 8; used := true |}] |}
    4 8 4 =
    Throw (TypeError
             (NotCallable (lit "though the block was of size 0) "))).
Proof.
  pose proof (zero_size_block_hides_next 4 8 4 ltac:(lia) ltac:(lia))
    as (Hrun & Hthrow & _).
  split; assumption.
Defined.

End DeallocMore.

(** * Further properties of [realloc] *)

Section ReallocMore.

Import AllocBlock AllocModule.

Lemma alter_release_insert (blocks : list AllocBlock.t) i block :
  blocks !! i = Some block ->
  alter release i blocks = <[i := release block]> blocks.
Proof.
  revert i. induction blocks as [|b rest IH]; intros [|i] Hi;
    try discriminate; simpl in *.
  - injection Hi as ->. reflexivity.
  - f_equal. apply IH. exact Hi.
Qed.

(** The loop of [realloc] stops at the first block with the address. *)
Lemma realloc_loop_find blocks pointer' size' align : forall start,
  realloc_loop blocks start pointer' size' align =
    match list_find (fun b => pointer b = pointer') blocks with
    | None => Ok None
    | Some (i, block) =>
        if negb (used block) then
          throw_new (new_ReallocFreedError pointer' size' align)
        else if negb (size block =? size') then
          throw_new (new_BlockSizeMismatchError
                       pointer' size' align (size block))
        else Ok (Some (start + i)%nat)
    end.
Proof.
  induction blocks as [|b rest IH]; intros start; simpl; [reflexivity|].
  destruct (decide (pointer b = pointer')) as [Heq|Hne].
  - apply Z.eqb_eq in Heq. rewrite Heq, Nat.add_0_r. reflexivity.
  - apply Z.eqb_neq in Hne. rewrite Hne, IH.
    destruct (list_find _ rest) as [[i block]|]; simpl; [|reflexivity].
    destruct (negb (used block)); [reflexivity|].
    destruct (negb (size block =? size')); [reflexivity|].
    do 2 f_equal. lia.
Qed.

(** What [realloc] does once it has found its block at index [i]. *)
Lemma realloc_found runner self pointer' size' align newSize i block :
  size' <> newSize ->
  list_find (fun b => pointer b = pointer') (blocks self) =
    Some (i, block) ->
  used block = true -> size block = size' ->
  realloc runner self pointer' size' align newSize =
    match Runner.memory_export runner with
    | None => Throw (ReferenceError (lit "FatalError"))
    | Some memory =>
        match alloc {| blocks := <[i := release block]> (blocks self) |}
                newSize align with
        | Ok (address, self') =>
            Ok (address, self',
                Runner.with_buffer runner (Memory.buffer memory))
        | Throw e => Throw e
        end
    end.
Proof.
  intros Hsizes Hfind Hused Hsize. unfold realloc.
  apply Z.eqb_neq in Hsizes. rewrite Hsizes.
  rewrite realloc_loop_find, Hfind, Hused, Hsize, Z.eqb_refl. simpl.
  apply list_find_Some in Hfind. destruct Hfind as (Hi & _ & _).
  rewrite (alter_release_insert _ _ _ Hi).
  unfold Runner.memory.
  destruct (Runner.memory_export runner) as [memory|]; [|reflexivity].
  simpl. unfold alloc.
  destruct (newBlock _ newSize align) as [[newBlock self']|]; reflexivity.
Qed.

(** X12: with two different sizes, the first block of the list that has the
    address decides what [realloc] does.  Without such a block it throws
    [ReallocUnallocedError]; when the block is free, [ReallocFreedError];
    when it is in use with another size, the [TypeError] that the
    constructor of [BlockSizeMismatchError] runs into.  Otherwise the
    block is freed, and then, for a guest without exported memory, the
    [throw new FatalError(...)] of [memory()] ends in [ReferenceError],
    no [FatalError] being declared; with exported memory the result is
    that of [alloc] with the new size, the guest's memory being left as it
    is. *)
Theorem realloc_first_match_decides
    runner self pointer' size' align newSize :
  size' <> newSize ->
  realloc runner self pointer' size' align newSize =
    match list_find (fun b => pointer b = pointer') (blocks self) with
    | None =>
        Throw (ReallocUnallocedError
                 (message3 "tried to reallocate unallocated memory "
                    pointer' size' align)
                 pointer' size' align)
    | Some (i, block) =>
        if negb (used block) then
          Throw (ReallocFreedError
                   (message3 "tried to reallocate freed memory "
                      pointer' size' align)
                   pointer' size' align)
        else if negb (size block =? size') then
          Throw (TypeError
                   (NotCallable
                      (lit "though the block was of size " ++
                       Number_toString (size block) ++ lit ") ")))
        else
          match Runner.memory_export runner with
          | None => Throw (ReferenceError (lit "FatalError"))
          | Some memory =>
              match alloc
                      {| blocks :=
                           <[i := {| pointer := pointer block;
                                     size := size block;
                                     used := false |}]> (blocks self) |}
                      newSize align with
              | Ok (address, self') =>
                  Ok (address, self',
                      Runner.with_buffer runner (Memory.buffer memory))
              | Throw e => Throw e
              end
          end
    end.
Proof.
  intros Hsizes.
  destruct (list_find _ (blocks self)) as [[i block]|] eqn:Hfind.
  - destruct (used block) eqn:Hused; simpl.
    + destruct (size block =? size') eqn:Hsize; simpl.
      * apply Z.eqb_eq in Hsize.
        apply (realloc_found runner self pointer' size' align newSize i
                 block Hsizes Hfind Hused Hsize).
      * unfold realloc. apply Z.eqb_neq in Hsizes. rewrite Hsizes.
        rewrite realloc_loop_find, Hfind, Hused, Hsize. reflexivity.
    + unfold realloc. apply Z.eqb_neq in Hsizes. rewrite Hsizes.
      rewrite realloc_loop_find, Hfind, Hused. reflexivity.
  - unfold realloc. apply Z.eqb_neq in Hsizes. rewrite Hsizes.
    rewrite realloc_loop_find, Hfind. reflexivity.
Qed.

Lemma realloc_first_match_decides_witness :
  realloc {| Runner.textDecoder := fun _ => [];
             Runner.memory_export := None |}
    {| blocks := [{| pointer := 4; size := 8; used := true |}] |}
    4 8 4 16 =
    Throw (ReferenceError (lit "FatalError")).
Proof.
  apply (realloc_first_match_decides
           {| Runner.textDecoder := fun _ => [];
              Runner.memory_export := None |}
           {| blocks := [{| pointer := 4; size := 8; used := true |}] |}
           4 8 4 16).
  lia.
Defined.

(** X13: when [dealloc] of a block and then [alloc] with the new size go
    through, [realloc] with two different sizes and exported memory
    returns what that [alloc] returns and leaves the allocator as that
    [alloc] leaves it; no byte of the guest's memory changes. *)
Theorem realloc_is_dealloc_then_alloc
    runner memory self pointer' size' align newSize self1 address self2 :
  Runner.memory_export runner = Some memory ->
  size' <> newSize ->
  dealloc self pointer' size' align = Ok self1 ->
  alloc self1 newSize align = Ok (address, self2) ->
  realloc runner self pointer' size' align newSize =
    Ok (address, self2, Runner.with_buffer runner (Memory.buffer memory)).
Proof.
  intros Hmemory Hsizes Hdealloc Halloc.
  unfold dealloc in Hdealloc. rewrite dealloc_blocks_find in Hdealloc.
  destruct (list_find _ (blocks self)) as [[i block]|] eqn:Hfind;
    [|discriminate].
  destruct (used block) eqn:Hused; [|discriminate]. simpl in Hdealloc.
  destruct (size block =? size') eqn:Hsize; [|discriminate].
  simpl in Hdealloc. injection Hdealloc as <-.
  apply Z.eqb_eq in Hsize.
  rewrite (realloc_found runner self pointer' size' align newSize i block
             Hsizes Hfind Hused Hsize).
  rewrite Hmemory, Halloc. reflexivity.
Qed.

Lemma realloc_is_dealloc_then_alloc_witness :
  realloc {| Runner.textDecoder := fun _ => [];
             Runner.memory_export :=
               Some {| Memory.buffer := [0; 0; 0; 0; 1; 2; 3; 4] |} |}
    {| blocks := [{| pointer := 4; size := 4; used := true |}] |}
    4 4 4 2 =
    Ok (4, {| blocks := [{| pointer := 4; size := 2; used := true |}] |},
        {| Runner.textDecoder := fun _ => [];
           Runner.memory_export :=
             Some {| Memory.buffer := [0; 0; 0; 0; 1; 2; 3; 4] |} |}).
Proof.
  apply (realloc_is_dealloc_then_alloc
           {| Runner.textDecoder := fun _ => [];
              Runner.memory_export :=
                Some {| Memory.buffer := [0; 0; 0; 0; 1; 2; 3; 4] |} |}
           {| Memory.buffer := [0; 0; 0; 0; 1; 2; 3; 4] |}
           {| blocks := [{| pointer := 4; size := 4; used := true |}] |}
           4 4 4 2
           {| blocks := [{| pointer := 4; size := 4; used := false |}] |});
    try reflexivity.
  lia.
Defined.

(** X14: after any sequence of valid calls to [alloc] and [dealloc] on a
    new allocator, a [realloc] that returns, with a new size that is not
    negative, leaves the blocks in ascending order of address and the used
    blocks without a shared address, does not shorten the list, and, when
    the two sizes differ, returns an address that is not 0. *)
Theorem realloc_keeps_invariants
    calls addresses runner self pointer' size' align newSize
    address self' runner' :
  Forall valid calls ->
  run calls AllocModule.new = Ok (addresses, self) ->
  0 <= newSize ->
  realloc runner self pointer' size' align newSize =
    Ok (address, self', runner') ->
  ascending (blocks self') /\
  used_disjoint (blocks self') /\
  (List.length (blocks self) <= List.length (blocks self'))%nat /\
  (size' <> newSize -> address <> 0).
Proof.
  intros Hvalid Hrun HnewSize Hrealloc.
  destruct (run_chained calls AllocModule.new _ _ chained_nil Hvalid Hrun)
    as (Hchained & _ & _).
  assert (chained (blocks self') /\
          (List.length (blocks self) <= List.length (blocks self'))%nat /\
          (size' <> newSize -> 1 <= address)) as (Hchained' & Hlength & Hpos).
  { destruct (decide (size' = newSize)) as [->|Hsizes].
    - unfold realloc in Hrealloc. rewrite Z.eqb_refl in Hrealloc.
      injection Hrealloc as <- <- <-. split; [assumption|]. split; [lia|].
      congruence.
    - pose proof Hrealloc as Hcases. unfold realloc in Hcases.
      apply Z.eqb_neq in Hsizes as Hneq. rewrite Hneq in Hcases.
      rewrite realloc_loop_find in Hcases.
      destruct (list_find _ (blocks self)) as [[i block]|] eqn:Hfind;
        [|discriminate].
      destruct (used block) eqn:Hused; [|discriminate].
      destruct (size block =? size') eqn:Hsize; [|discriminate].
      clear Hcases. apply Z.eqb_eq in Hsize.
      rewrite (realloc_found runner self pointer' size' align newSize i
                 block Hsizes Hfind Hused Hsize) in Hrealloc.
      destruct (Runner.memory_export runner) as [memory|]; [|discriminate].
      destruct (alloc _ newSize align) as [[address' self1]|] eqn:Halloc;
        [|discriminate].
      injection Hrealloc as <- <- <-.
      apply list_find_Some in Hfind. destruct Hfind as (Hi & _ & _).
      unfold alloc in Halloc.
      destruct (newBlock _ newSize align) as [[newBlock self2]|] eqn:Hnew;
        [|discriminate].
      injection Halloc as <- <-.
      assert (chained (<[i := release block]> (blocks self))) as Hreleased.
      { destruct Hchained as [Hfields Hchain].
        destruct (Hfields _ _ Hi) as [Hbsize Hbpointer].
        apply chained_insert; simpl; auto; [split; assumption| |].
        - intros j prevBlock -> Hprev. exact (Hchain _ _ _ Hprev Hi).
        - intros nextBlock Hnext. exact (Hchain _ _ _ Hi Hnext). }
      destruct (newBlock_chained
                  {| blocks := <[i := release block]> (blocks self) |}
                  _ _ _ _ Hreleased HnewSize Hnew)
        as (Hchained' & Hpointer & Hlength).
      simpl in Hlength. rewrite length_insert in Hlength.
      split; [assumption|]. split; [assumption|]. intros _. assumption. }
  split; [apply chained_ascending; assumption|].
  split; [apply chained_used_disjoint; assumption|].
  split; [assumption|]. intros Hsizes. specialize (Hpos Hsizes). lia.
Qed.

Lemma realloc_keeps_invariants_witness :
  let self' :=
    {| blocks := [{| pointer := 4; size := 4; used := false |};
                  {| pointer := 8; size := 4; used := true |};
                  {| pointer := 12; size := 8; used := true |}] |} in
  ascending (blocks self') /\
  used_disjoint (blocks self') /\
  (2 <= List.length (blocks self'))%nat /\
  (4 <> 8 -> 12 <> 0).
Proof.
  apply (realloc_keeps_invariants
           [CallAlloc 4 4; CallAlloc 4 4] [4; 8]
           {| Runner.textDecoder := fun _ => [];
              Runner.memory_export := Some {| Memory.buffer := [] |} |}
           {| blocks := [{| pointer := 4; size := 4; used := true |};
                         {| pointer := 8; size := 4; used := true |}] |}
           4 4 4 8 12 _
           {| Runner.textDecoder := fun _ => [];
              Runner.memory_export := Some {| Memory.buffer := [] |} |}).
  - repeat constructor; simpl; lia.
  - reflexivity.
  - lia.
  - reflexivity.
Defined.

(** X15: in a chained block list without a block of size 0, a [realloc]
    to a greater size that returns never returns the address it was
    given: the block that was freed is too small to be taken again, so
    the new block is another entry of the list, at another address. *)
Theorem realloc_growing_moves
    runner self pointer' size' align newSize address self' runner' :
  chained (blocks self) ->
  Forall (fun b => 0 < AllocBlock.size b) (blocks self) ->
  size' < newSize ->
  realloc runner self pointer' size' align newSize =
    Ok (address, self', runner') ->
  address <> pointer'.
Proof.
  intros Hchained Hpositive Hgrow Hrealloc.
  assert (size' <> newSize) as Hsizes by lia.
  pose proof Hrealloc as Hcases. unfold realloc in Hcases.
  apply Z.eqb_neq in Hsizes as Hneq. rewrite Hneq in Hcases.
  rewrite realloc_loop_find in Hcases.
  destruct (list_find _ (blocks self)) as [[i block]|] eqn:Hfind;
    [|discriminate].
  destruct (used block) eqn:Hused; [|discriminate].
  destruct (size block =? size') eqn:Hsize; [|discriminate].
  clear Hcases. apply Z.eqb_eq in Hsize.
  rewrite (realloc_found runner self pointer' size' align newSize i
             block Hsizes Hfind Hused Hsize) in Hrealloc.
  destruct (Runner.memory_export runner) as [memory|]; [|discriminate].
  destruct (alloc _ newSize align) as [[address' self1]|] eqn:Halloc;
    [|discriminate].
  injection Hrealloc as <- <- <-.
  apply list_find_Some in Hfind. destruct Hfind as (Hi & Hpointer & _).
  unfold alloc in Halloc.
  destruct (newBlock _ newSize align) as [[newBlock self2]|] eqn:Hnew;
    [|discriminate].
  injection Halloc as <- <-.
  rewrite Forall_lookup in Hpositive.
  pose proof (Hpositive _ _ Hi) as Hblock_positive.
  assert (chained (<[i := release block]> (blocks self))) as Hreleased.
  { destruct Hchained as [Hfields Hchain].
    destruct (Hfields _ _ Hi) as [Hbsize Hbpointer].
    apply chained_insert; simpl; auto; [split; assumption| |].
    - intros j prevBlock -> Hprev. exact (Hchain _ _ _ Hprev Hi).
    - intros nextBlock Hnext. exact (Hchain _ _ _ Hi Hnext). }
  assert (0 <= newSize) as HnewSize by lia.
  destruct (newBlock_chained
              {| blocks := <[i := release block]> (blocks self) |}
              _ _ _ _ Hreleased HnewSize Hnew)
    as (Hchained' & _ & _).
  apply lookup_lt_Some in Hi as Hlt.
  assert (exists k,
             k <> i /\ blocks self2 !! k = Some newBlock /\
             blocks self2 !! i = Some (release block) /\
             nextPointer newBlock = pointer newBlock + newSize)
    as (k & Hki & Hk & Hi' & Hend).
  { apply newBlock_cases in Hnew. simpl in Hnew.
    destruct Hnew as [_ [(Hnil & _)|[(k & Hloop & ->)|Happend]]].
    - apply (f_equal List.length) in Hnil.
      rewrite length_insert in Hnil. simpl in Hnil. lia.
    - apply newBlock_loop_stop in Hloop.
      destruct Hloop as (old & Hold & _ & Hfits & Hshape).
      assert (k <> i) as Hki.
      { intros ->. rewrite list_lookup_insert_eq in Hold by assumption.
        injection Hold as <-. simpl in Hfits. lia. }
      apply lookup_lt_Some in Hold as Hk. rewrite length_insert in Hk.
      exists k. split; [assumption|].
      split; [apply list_lookup_insert_eq; rewrite length_insert; lia|].
      split.
      + rewrite list_lookup_insert_ne by assumption.
        apply list_lookup_insert_eq. assumption.
      + destruct k as [|j]; [subst newBlock; reflexivity|].
        destruct Hshape as (prevBlock & _ & -> & _). reflexivity.
    - destruct Happend as (lastBlock & _ & _ & -> & ->).
      exists (List.length (<[i := release block]> (blocks self))).
      rewrite length_insert. split; [lia|].
      split.
      + rewrite <- (length_insert (blocks self) i (release block)).
        apply list_lookup_middle. reflexivity.
      + split; [|reflexivity].
        rewrite lookup_app_l by (rewrite length_insert; lia).
        apply list_lookup_insert_eq. assumption. }
  destruct (decide (i < k)%nat) as [Hik|Hik].
  - pose proof (chained_lt _ _ _ _ _ Hchained' Hik Hi' Hk) as Hle.
    unfold nextPointer, nextPointerWith in Hle. simpl in Hle. lia.
  - assert (k < i)%nat as Hlt' by lia.
    pose proof (chained_lt _ _ _ _ _ Hchained' Hlt' Hk Hi') as Hle.
    rewrite Hend in Hle. simpl in Hle. lia.
Qed.

Lemma realloc_growing_moves_witness : 12 <> 4.
Proof.
  apply (realloc_growing_moves
           {| Runner.textDecoder := fun _ => [];
              Runner.memory_export := Some {| Memory.buffer := [] |} |}
           {| blocks := [{| pointer := 4; size := 4; used := true |};
                         {| pointer := 8; size := 4; used := true |}] |}
           4 4 4 8 12
           {| blocks := [{| pointer := 4; size := 4; used := false |};
                         {| pointer := 8; size := 4; used := true |};
                         {| pointer := 12; size := 8; used := true |}] |}
           {| Runner.textDecoder := fun _ => [];
              Runner.memory_export := Some {| Memory.buffer := [] |} |}).
  - split.
    + intros [|[|j]] c Hc; try discriminate; injection Hc as <-;
        simpl; lia.
    + intros [|[|j]] c d Hc Hd; try discriminate.
      injection Hc as <-. injection Hd as <-.
      unfold nextPointer, nextPointerWith. simpl. lia.
  - repeat constructor; simpl; lia.
  - lia.
  - reflexivity.
Defined.

End ReallocMore.

(** * Further properties of the bridges *)

Section BridgesMore.

Import PanicModule.

Lemma panic_call_message runner self c self' :
  panic_call runner self c = Ok self' ->
  exists fragment,
    panic_fragment runner c = Ok fragment /\
    message self' = message self ++ fragment.
Proof.
  destruct c as [ch|pointer length|pointer length|line' column'];
    simpl; intros Hcall.
  - injection Hcall as <-. eauto.
  - unfold panic_str in Hcall.
    destruct (Runner.decodeUtf8 runner pointer length) as [str|];
      [|discriminate].
    injection Hcall as <-. eauto.
  - unfold panic_put_file in Hcall.
    destruct (Runner.decodeUtf8 runner pointer length) as [str|];
      [|discriminate].
    injection Hcall as <-. exists []. simpl. rewrite app_nil_r. auto.
  - injection Hcall as <-. exists []. simpl. rewrite app_nil_r. auto.
Qed.

(** X16: the message of the panic bridge is what it was, followed by the
    fragments of the calls in the order of the calls, a number sent with
    [panic_ch] counting as its decimal text; a [panic()] on a bridge
    whose message is not empty throws a panic with that very message, the
    file, or [?] when none was set, the line and the column. *)
Theorem panic_message_in_call_order runner calls : forall self self',
  panic_calls runner calls self = Ok self' ->
  exists fragments,
    Forall2 (fun c fragment => panic_fragment runner c = Ok fragment)
            calls fragments /\
    message self' = message self ++ List.concat fragments /\
    (message self' <> [] ->
     panic self' =
       Throw (WasmPanicError (message self')
                (default (lit "?") (file self'))
                (line self') (column self'))).
Proof.
  assert (forall self, message self <> [] ->
            panic self =
              Throw (WasmPanicError (message self)
                       (default (lit "?") (file self))
                       (line self) (column self))) as Hpanic.
  { intros self Hmessage. unfold panic.
    destruct (message self); [congruence|].
    destruct (file self); reflexivity. }
  induction calls as [|c calls IH]; intros self self' Hcalls;
    simpl in Hcalls.
  - injection Hcalls as <-. exists []. simpl. rewrite app_nil_r.
    split; [constructor|]. split; [reflexivity|apply Hpanic].
  - destruct (panic_call runner self c) as [self1|] eqn:Hcall;
      [|discriminate].
    simpl in Hcalls.
    destruct (panic_call_message _ _ _ _ Hcall) as (fragment & Hc & Hm1).
    destruct (IH _ _ Hcalls) as (fragments & Hall & Hm & _).
    exists (fragment :: fragments).
    split; [constructor; assumption|].
    split; [|apply Hpanic].
    rewrite Hm, Hm1. simpl. rewrite app_assoc. reflexivity.
Qed.

Lemma panic_message_in_call_order_witness :
  exists fragments,
    Forall2 (fun c fragment =>
               panic_fragment
                 {| Runner.textDecoder := fun _ => [];
                    Runner.memory_export := None |} c = Ok fragment)
            [PanicCh 7; PanicPutLineColumn 3 9; PanicCh 12] fragments /\
    lit "712" = [] ++ List.concat fragments /\
    (lit "712" <> [] ->
     panic {| message := lit "712"; file := None; line := 3; column := 9 |} =
       Throw (WasmPanicError (lit "712") (lit "?") 3 9)).
Proof.
  apply (panic_message_in_call_order
           {| Runner.textDecoder := fun _ => [];
              Runner.memory_export := None |}
           [PanicCh 7; PanicPutLineColumn 3 9; PanicCh 12]
           PanicModule.new
           {| message := lit "712"; file := None; line := 3;
              column := 9 |}).
  reflexivity.
Defined.

Lemma panic_calls_app runner calls1 calls2 : forall self,
  panic_calls runner (calls1 ++ calls2) self =
    let* self := panic_calls runner calls1 self in
    panic_calls runner calls2 self.
Proof.
  induction calls1 as [|c calls1 IH]; intros self; simpl; [reflexivity|].
  destruct (panic_call runner self c); simpl; [apply IH|reflexivity].
Qed.

(** X17: the position the panic carries is the one of the last
    [panic_put_line_column]: the calls before it, and the message
    fragments and file names sent after it, do not count. *)
Theorem panic_last_position_wins
    runner before line' column' after self self' :
  Forall (fun c => forall l c', c <> PanicPutLineColumn l c') after ->
  panic_calls runner
    (before ++ PanicPutLineColumn line' column' :: after) self = Ok self' ->
  line self' = line' /\ column self' = column'.
Proof.
  intros Hafter Hcalls. rewrite panic_calls_app in Hcalls.
  destruct (panic_calls runner before self) as [self1|]; [|discriminate].
  simpl in Hcalls.
  remember (panic_put_line_column self1 line' column') as self2 eqn:Hput.
  assert (line self2 = line' /\ column self2 = column') as Hset
    by (subst self2; auto).
  clear Hput. revert self2 Hset Hcalls.
  induction Hafter as [|c after Hc _ IH]; intros self2 Hset Hcalls;
    simpl in Hcalls.
  - injection Hcalls as <-. exact Hset.
  - destruct (panic_call runner self2 c) as [self3|] eqn:Hcall;
      [|discriminate].
    simpl in Hcalls. apply (IH self3); [|exact Hcalls].
    destruct c as [ch|pointer length|pointer length|l c']; simpl in Hcall.
    + injection Hcall as <-. exact Hset.
    + unfold panic_str in Hcall.
      destruct (Runner.decodeUtf8 runner pointer length); [|discriminate].
      injection Hcall as <-. exact Hset.
    + unfold panic_put_file in Hcall.
      destruct (Runner.decodeUtf8 runner pointer length); [|discriminate].
      injection Hcall as <-. exact Hset.
    + exfalso. exact (Hc l c' eq_refl).
Qed.

Lemma panic_last_position_wins_witness :
  line {| message := lit "5"; file := None; line := 3; column := 9 |} = 3 /\
  column {| message := lit "5"; file := None; line := 3; column := 9 |} = 9.
Proof.
  apply (panic_last_position_wins
           {| Runner.textDecoder := fun _ => [];
              Runner.memory_export := None |}
           [PanicPutLineColumn 1 1] 3 9 [PanicCh 5] PanicModule.new).
  - repeat constructor. discriminate.
  - reflexivity.
Defined.

Lemma debug_call_fragment runner self c out self' :
  c <> DblogFlush ->
  debug_call runner self c = Ok (out, self') ->
  exists fragment,
    debug_fragment runner c = Ok fragment /\ out = [] /\
    DebugModule.dblog self' = DebugModule.dblog self ++ [fragment].
Proof.
  destruct c as [code|pointer length|]; simpl; intros Hc Hcall;
    [| |congruence].
  - unfold DebugModule.dblog_ch in Hcall.
    destruct (String_fromCodePoint code) as [ch|]; [|discriminate].
    injection Hcall as <- <-. eauto.
  - unfold DebugModule.dblog_str in Hcall.
    destruct (Runner.decodeUtf8 runner pointer length) as [str|];
      [|discriminate].
    injection Hcall as <- <-. eauto.
Qed.

Lemma debug_calls_fragments runner calls : forall self outs self',
  Forall (fun c => c <> DblogFlush) calls ->
  debug_calls runner calls self = Ok (outs, self') ->
  exists fragments,
    Forall2 (fun c fragment => debug_fragment runner c = Ok fragment)
            calls fragments /\
    outs = [] /\
    DebugModule.dblog self' = DebugModule.dblog self ++ fragments.
Proof.
  induction calls as [|c calls IH]; intros self outs self' Hnone Hcalls;
    simpl in Hcalls.
  - injection Hcalls as <- <-. exists []. rewrite app_nil_r.
    split; [constructor|auto].
  - apply Forall_cons in Hnone. destruct Hnone as [Hc Hnone].
    destruct (debug_call runner self c) as [[out self1]|] eqn:Hcall;
      [|discriminate].
    simpl in Hcalls.
    destruct (debug_calls runner calls self1) as [[outs1 self2]|] eqn:Hrest;
      [|discriminate].
    injection Hcalls as <- <-.
    destruct (debug_call_fragment _ _ _ _ _ Hc Hcall)
      as (fragment & Hfragment & -> & Hlog1).
    destruct (IH _ _ _ Hnone Hrest) as (fragments & Hall & -> & Hlog).
    exists (fragment :: fragments).
    split; [constructor; assumption|]. split; [reflexivity|].
    rewrite Hlog, Hlog1, <- app_assoc. reflexivity.
Qed.

Lemma debug_calls_app runner calls1 calls2 : forall self,
  debug_calls runner (calls1 ++ calls2) self =
    let* (outs1, self) := debug_calls runner calls1 self in
    let* (outs2, self) := debug_calls runner calls2 self in
    Ok (outs1 ++ outs2, self).
Proof.
  induction calls1 as [|c calls1 IH]; intros self; simpl.
  - destruct (debug_calls runner calls2 self) as [[outs2 self2]|];
      reflexivity.
  - destruct (debug_call runner self c) as [[out self1]|]; simpl;
      [|reflexivity].
    rewrite IH.
    destruct (debug_calls runner calls1 self1) as [[outs1 self2]|]; simpl;
      [|reflexivity].
    destruct (debug_calls runner calls2 self2) as [[outs2 self3]|]; simpl;
      [|reflexivity].
    rewrite app_assoc. reflexivity.
Qed.

(** X18: a [dblog_flush] hands to [console.debug] one string, the
    fragments that the bridge held and those sent since, joined in the
    order of the calls, and empties the log: a second flush right after it
    hands over the empty string. *)
Theorem dblog_flush_emits_in_call_order runner calls self outs self' :
  Forall (fun c => c <> DblogFlush) calls ->
  debug_calls runner (calls ++ [DblogFlush; DblogFlush]) self =
    Ok (outs, self') ->
  exists fragments,
    Forall2 (fun c fragment => debug_fragment runner c = Ok fragment)
            calls fragments /\
    outs = [List.concat (DebugModule.dblog self ++ fragments); []] /\
    DebugModule.dblog self' = [].
Proof.
  intros Hnone Hcalls. rewrite debug_calls_app in Hcalls.
  destruct (debug_calls runner calls self) as [[outs1 self1]|] eqn:Hfirst;
    [|discriminate].
  simpl in Hcalls. injection Hcalls as <- <-.
  destruct (debug_calls_fragments _ _ _ _ _ Hnone Hfirst)
    as (fragments & Hall & -> & Hlog).
  exists fragments. split; [assumption|].
  rewrite Hlog. auto.
Qed.

Lemma dblog_flush_emits_in_call_order_witness :
  exists fragments,
    Forall2 (fun c fragment =>
               debug_fragment
                 {| Runner.textDecoder := fun _ => [];
                    Runner.memory_export := None |} c = Ok fragment)
            [DblogCh 104; DblogCh 105] fragments /\
    [lit "hi"; []] = [List.concat ([] ++ fragments); []] /\
    DebugModule.dblog DebugModule.new = [].
Proof.
  apply (dblog_flush_emits_in_call_order
           {| Runner.textDecoder := fun _ => [];
              Runner.memory_export := None |}
           [DblogCh 104; DblogCh 105] DebugModule.new).
  - repeat constructor; discriminate.
  - reflexivity.
Defined.

(** X19: [dblog_ch] logs one fragment for a code point from 0 to 0x10FFFF:
    the code point itself as one code unit below 0x10000, and above a high
    and a low surrogate from which the code point is read back; for any
    other number it throws [RangeError]. *)
Theorem dblog_ch_code_point self code :
  (0 <= code < 65536 ->
   DebugModule.dblog_ch self code =
     Ok {| DebugModule.dblog := DebugModule.dblog self ++ [[Z.to_N code]] |})
  /\
  (65536 <= code <= 1114111 ->
   exists high low,
     DebugModule.dblog_ch self code =
       Ok {| DebugModule.dblog :=
               DebugModule.dblog self ++ [[Z.to_N high; Z.to_N low]] |} /\
     55296 <= high <= 56319 /\ 56320 <= low <= 57343 /\
     code = 65536 + (high - 55296) * 1024 + (low - 56320))
  /\
  (code < 0 \/ 1114111 < code ->
   DebugModule.dblog_ch self code = Throw RangeError).
Proof.
  unfold DebugModule.dblog_ch, String_fromCodePoint.
  split; [|split].
  - intros [Hlow Hhigh].
    destruct (code <? 0) eqn:H0; [apply Z.ltb_lt in H0; lia|].
    destruct (1114111 <? code) eqn:H1; [apply Z.ltb_lt in H1; lia|].
    destruct (code <? 65536) eqn:H2; [|apply Z.ltb_ge in H2; lia].
    reflexivity.
  - intros [Hlow Hhigh].
    destruct (code <? 0) eqn:H0; [apply Z.ltb_lt in H0; lia|].
    destruct (1114111 <? code) eqn:H1; [apply Z.ltb_lt in H1; lia|].
    destruct (code <? 65536) eqn:H2; [apply Z.ltb_lt in H2; lia|].
    exists (55296 + (code - 65536) / 1024),
           (56320 + (code - 65536) mod 1024).
    split; [reflexivity|].
    pose proof (Z.div_mod (code - 65536) 1024 ltac:(lia)).
    pose proof (Z.mod_pos_bound (code - 65536) 1024 ltac:(lia)).
    assert (0 <= (code - 65536) / 1024 < 1024).
    { split; [apply Z.div_pos; lia|apply Z.div_lt_upper_bound; lia]. }
    lia.
  - intros [Hneg|Hbig].
    + apply Z.ltb_lt in Hneg. rewrite Hneg. reflexivity.
    + apply Z.ltb_lt in Hbig. rewrite Hbig, orb_true_r. reflexivity.
Qed.

End BridgesMore.

(** * Properties of the runner's accessors *)

Section RunnerMore.

Import Runner.

(** [readU8] on a runner with exported memory. *)
Lemma readU8_exported self memory offset :
  memory_export self = Some memory ->
  readU8 self offset =
    if (offset <? 0) ||
       (Z.of_nat (List.length (Memory.buffer memory)) <=? offset)
    then Throw RangeError
    else Ok (Memory.buffer memory !! Z.to_nat offset).
Proof.
  intros Hmemory. unfold readU8, Runner.memory. rewrite Hmemory. simpl.
  destruct (offset <? 0) eqn:Hneg; simpl; [reflexivity|].
  destruct (_ <? offset + 1) eqn:Hfit;
    destruct (_ <=? offset) eqn:Hle; simpl;
    try (apply Z.ltb_lt in Hfit); try (apply Z.ltb_ge in Hfit);
    try (apply Z.leb_le in Hle); try (apply Z.leb_gt in Hle);
    try lia; [reflexivity|].
  unfold Uint8Array.get. simpl.
  rewrite lookup_take_lt by (change (Z.to_nat 1) with 1%nat; lia).
  rewrite lookup_drop, Nat.add_0_r. reflexivity.
Qed.

(** X20: when the guest exports no memory, [readU8] ends in the
    [ReferenceError] of [memory()], which names a [FatalError] that
    nothing declares; with exported memory it throws [RangeError] when the
    offset is not one of the buffer's, and otherwise returns the byte at
    the offset, never [undefined]. *)
Theorem readU8_bounds self offset :
  match memory_export self with
  | None =>
      readU8 self offset = Throw (ReferenceError (lit "FatalError"))
  | Some memory =>
      if decide (0 <= offset <
                 Z.of_nat (List.length (Memory.buffer memory)))
      then exists byte,
             Memory.buffer memory !! Z.to_nat offset = Some byte /\
             readU8 self offset = Ok (Some byte)
      else readU8 self offset = Throw RangeError
  end.
Proof.
  destruct (memory_export self) as [memory|] eqn:Hmemory.
  - rewrite (readU8_exported _ _ _ Hmemory).
    destruct (decide _) as [[Hlow Hhigh]|Hout].
    + destruct (offset <? 0) eqn:Hneg; [apply Z.ltb_lt in Hneg; lia|].
      destruct (_ <=? offset) eqn:Hle; [apply Z.leb_le in Hle; lia|].
      simpl.
      assert (Z.to_nat offset < List.length (Memory.buffer memory))%nat
        as Hlt by lia.
      apply lookup_lt_is_Some_2 in Hlt. destruct Hlt as [byte Hbyte].
      exists byte. split; [exact Hbyte|f_equal; exact Hbyte].
    + destruct (offset <? 0) eqn:Hneg; [reflexivity|].
      destruct (_ <=? offset) eqn:Hle; [reflexivity|].
      apply Z.ltb_ge in Hneg. apply Z.leb_gt in Hle. lia.
  - unfold readU8, Runner.memory. rewrite Hmemory. reflexivity.
Qed.

(** X21: after a [writeU8] that returns, [readU8] at the same offset gives
    the value modulo 256, and [readU8] at any other offset gives what it
    gave before. *)
Theorem writeU8_then_readU8 self offset value self' :
  writeU8 self offset value = Ok self' ->
  readU8 self' offset = Ok (Some (value mod 256)) /\
  forall other, other <> offset -> readU8 self' other = readU8 self other.
Proof.
  unfold writeU8, Runner.memory. intros Hwrite.
  destruct (memory_export self) as [memory|] eqn:Hmemory; [|discriminate].
  simpl in Hwrite.
  destruct (offset <? 0) eqn:Hneg; [discriminate|]. simpl in Hwrite.
  destruct (_ <? offset + 1) eqn:Hfit; [discriminate|]. simpl in Hwrite.
  injection Hwrite as <-.
  apply Z.ltb_ge in Hneg, Hfit.
  set (buffer' :=
         <[(Z.to_nat offset + 0)%nat := value mod 256]>
           (Memory.buffer memory)).
  assert (memory_export (with_buffer self buffer') =
          Some {| Memory.buffer := buffer' |}) as Hmemory' by reflexivity.
  assert (List.length buffer' = List.length (Memory.buffer memory))
    as Hlength by apply length_insert.
  split.
  - rewrite (readU8_exported _ _ _ Hmemory'). simpl. rewrite Hlength.
    destruct (offset <? 0) eqn:Hneg'; [apply Z.ltb_lt in Hneg'; lia|].
    destruct (_ <=? offset) eqn:Hle; [apply Z.leb_le in Hle; lia|].
    simpl. unfold buffer', ArrayBuffer. rewrite Nat.add_0_r.
    rewrite list_lookup_insert_eq by lia. reflexivity.
  - intros other Hother.
    rewrite (readU8_exported _ _ _ Hmemory'),
            (readU8_exported _ _ _ Hmemory).
    simpl. rewrite Hlength.
    destruct (other <? 0) eqn:Hneg'; [reflexivity|].
    destruct (_ <=? other) eqn:Hle; [reflexivity|]. simpl.
    apply Z.ltb_ge in Hneg'.
    unfold buffer', ArrayBuffer. rewrite Nat.add_0_r.
    rewrite list_lookup_insert_ne by lia. reflexivity.
Qed.

Lemma writeU8_then_readU8_witness :
  let self' :=
    {| textDecoder := fun _ => [];
       memory_export := Some {| Memory.buffer := [0; 44; 0] |} |} in
  readU8 self' 1 = Ok (Some (300 mod 256)) /\
  forall other,
    other <> 1 ->
    readU8 self' other =
    readU8 {| textDecoder := fun _ => [];
              memory_export := Some {| Memory.buffer := [0; 7; 0] |} |}
      other.
Proof.
  apply (writeU8_then_readU8
           {| textDecoder := fun _ => [];
              memory_export := Some {| Memory.buffer := [0; 7; 0] |} |}
           1 300).
  reflexivity.
Defined.

(** X22: [decodeUtf8] hands to the decoder exactly the [length] bytes of
    the guest's memory from [pointer] on when that span lies in the
    buffer, and throws [RangeError], without decoding anything, when it
    does not. *)
Theorem decodeUtf8_span self memory pointer length :
  memory_export self = Some memory ->
  (0 <= pointer -> 0 <= length ->
   pointer + length <= Z.of_nat (List.length (Memory.buffer memory)) ->
   exists bytes,
     decodeUtf8 self pointer length = Ok (textDecoder self bytes) /\
     Z.of_nat (List.length bytes) = length /\
     forall i, (i < List.length bytes)%nat ->
       bytes !! i = Memory.buffer memory !! (Z.to_nat pointer + i)%nat)
  /\
  (pointer < 0 \/ length < 0 \/
   Z.of_nat (List.length (Memory.buffer memory)) < pointer + length ->
   decodeUtf8 self pointer length = Throw RangeError).
Proof.
  intros Hmemory. unfold decodeUtf8, Runner.memory. rewrite Hmemory. simpl.
  split.
  - intros Hpointer Hlength Hfit.
    destruct (pointer <? 0) eqn:H0; [apply Z.ltb_lt in H0; lia|].
    destruct (length <? 0) eqn:H1; [apply Z.ltb_lt in H1; lia|].
    destruct (_ <? pointer + length) eqn:H2; [apply Z.ltb_lt in H2; lia|].
    simpl. eexists. split; [reflexivity|].
    split.
    + rewrite length_take, length_drop. lia.
    + intros i Hi. rewrite length_take in Hi.
      rewrite lookup_take_lt by lia. apply lookup_drop.
  - intros Hout.
    destruct (pointer <? 0) eqn:H0; [reflexivity|].
    destruct (length <? 0) eqn:H1; [reflexivity|].
    destruct (_ <? pointer + length) eqn:H2; [reflexivity|].
    apply Z.ltb_ge in H0, H1, H2. lia.
Qed.

Lemma decodeUtf8_span_witness :
  decodeUtf8 {| textDecoder := map Z.to_N;
                memory_export :=
                  Some {| Memory.buffer := [0; 104; 105; 0] |} |}
    2 3 = Throw RangeError.
Proof.
  apply (decodeUtf8_span
           {| textDecoder := map Z.to_N;
              memory_export :=
                Some {| Memory.buffer := [0; 104; 105; 0] |} |}
           {| Memory.buffer := [0; 104; 105; 0] |} 2 3);
    [reflexivity|simpl; lia].
Defined.

End RunnerMore.

(** * Properties of the 32-bit accessors *)

Section Words.

Import Runner.

Lemma low_first_of_low_first bits :
  0 <= bits < 4294967296 ->
  Word32Array.of_low_first (Word32Array.low_first bits) = Some bits.
Proof.
  intros Hbits. unfold Word32Array.low_first, Word32Array.of_low_first.
  f_equal. Z.div_mod_to_equations. lia.
Qed.

Lemma in_order_twice order (bytes : list Z) :
  Word32Array.in_order order (Word32Array.in_order order bytes) = bytes.
Proof. destruct order; simpl; [reflexivity|apply rev_involutive]. Qed.

Lemma length_in_order order (bytes : list Z) :
  List.length (Word32Array.in_order order bytes) = List.length bytes.
Proof. destruct order; simpl; [reflexivity|apply length_rev]. Qed.

Lemma put_length order (buffer : list Z) start value :
  (start + 4 <= List.length buffer)%nat ->
  List.length (Word32Array.put order buffer start value) =
    List.length buffer.
Proof.
  intros Hfit. unfold Word32Array.put.
  rewrite !length_app, length_take, length_drop, length_in_order.
  simpl. lia.
Qed.

Lemma put_bits order (buffer : list Z) start value :
  (start + 4 <= List.length buffer)%nat ->
  Word32Array.bits order (Word32Array.put order buffer start value) start =
    Some (value mod 4294967296).
Proof.
  intros Hfit. unfold Word32Array.bits, Word32Array.put.
  rewrite drop_app_length' by (rewrite length_take; lia).
  rewrite take_app_length' by (rewrite length_in_order; reflexivity).
  rewrite in_order_twice. apply low_first_of_low_first.
  apply Z.mod_pos_bound. lia.
Qed.

Lemma put_elsewhere order (buffer : list Z) start value i :
  (start + 4 <= List.length buffer)%nat ->
  (i < start \/ start + 4 <= i)%nat ->
  Word32Array.put order buffer start value !! i = buffer !! i.
Proof.
  intros Hfit Hi. unfold Word32Array.put, ArrayBuffer.
  destruct Hi as [Hbefore|Hafter].
  - rewrite lookup_app_l by (rewrite length_take; lia).
    apply lookup_take_lt. assumption.
  - rewrite lookup_app_r by (rewrite length_take; lia).
    rewrite lookup_app_r
      by (rewrite length_take, length_in_order; simpl; lia).
    rewrite lookup_drop, length_take, length_in_order. simpl.
    f_equal. lia.
Qed.

(** What a 32-bit write that returns says of its arguments. *)
Lemma writeU32_returns order self offset value self' :
  writeU32 order self offset value = Ok self' ->
  exists memory,
    memory_export self = Some memory /\
    0 <= offset /\ offset mod 4 = 0 /\
    offset + 4 <= Z.of_nat (List.length (Memory.buffer memory)) /\
    self' =
      with_buffer self
        (Word32Array.put order (Memory.buffer memory) (Z.to_nat offset)
           value).
Proof.
  unfold writeU32, Runner.memory, Word32Array.new. intros Hwrite.
  destruct (memory_export self) as [memory|]; [|discriminate].
  simpl in Hwrite.
  destruct (offset <? 0) eqn:Hneg; [discriminate|].
  destruct (offset mod 4 =? 0) eqn:Haligned; [|discriminate].
  destruct (_ <? offset + 4) eqn:Hfit; [discriminate|].
  simpl in Hwrite. injection Hwrite as <-.
  apply Z.ltb_ge in Hneg, Hfit. apply Z.eqb_eq in Haligned.
  exists memory. auto.
Qed.

Lemma read32_exported order self buffer offset :
  memory_export self = Some {| Memory.buffer := buffer |} ->
  0 <= offset -> offset mod 4 = 0 ->
  offset + 4 <= Z.of_nat (List.length buffer) ->
  readU32 order self offset =
    Ok (Word32Array.bits order buffer (Z.to_nat offset)) /\
  readI32 order self offset =
    Ok (Word32Array.signed <$>
          Word32Array.bits order buffer (Z.to_nat offset)).
Proof.
  intros Hmemory Hneg Haligned Hfit.
  unfold readU32, readI32, Runner.memory, Word32Array.new.
  rewrite Hmemory. simpl.
  apply Z.ltb_ge in Hneg, Hfit. apply Z.eqb_eq in Haligned.
  rewrite Hneg, Haligned, Hfit. auto.
Qed.

(** X23: a [writeU32] returns only for an offset that is a multiple of 4
    with four bytes of the buffer from it on; after it, [readU32] at that
    offset gives the value modulo 2^32, in either byte order, [readI32]
    gives the same 32 bits read as a signed number, and [readU8] outside
    of those four bytes gives what it gave before. *)
Theorem writeU32_then_read order self offset value self' :
  writeU32 order self offset value = Ok self' ->
  offset mod 4 = 0 /\
  readU32 order self' offset = Ok (Some (value mod 4294967296)) /\
  readI32 order self' offset =
    Ok (Some (Word32Array.signed (value mod 4294967296))) /\
  forall other,
    other < offset \/ offset + 4 <= other ->
    readU8 self' other = readU8 self other.
Proof.
  intros Hwrite.
  destruct (writeU32_returns _ _ _ _ _ Hwrite)
    as (memory & Hmemory & Hneg & Haligned & Hfit & ->).
  assert (Z.to_nat offset + 4 <= List.length (Memory.buffer memory))%nat
    as Hfit' by lia.
  pose proof (put_length order _ _ value Hfit') as Hlength.
  destruct (read32_exported order
              (with_buffer self
                 (Word32Array.put order (Memory.buffer memory)
                    (Z.to_nat offset) value))
              _ offset eq_refl Hneg Haligned ltac:(lia)) as [HU HI].
  split; [assumption|].
  split; [rewrite HU, put_bits by assumption; reflexivity|].
  split; [rewrite HI, put_bits by assumption; reflexivity|].
  intros other Hother.
  rewrite (readU8_exported (with_buffer self _) _ other eq_refl),
          (readU8_exported self memory other Hmemory).
  simpl. rewrite Hlength.
  destruct (other <? 0) eqn:Hneg'; [reflexivity|].
  destruct (_ <=? other) eqn:Hle; [reflexivity|]. simpl.
  apply Z.ltb_ge in Hneg'. f_equal.
  apply put_elsewhere; [assumption|lia].
Qed.

Lemma writeU32_then_read_witness :
  let self' :=
    {| textDecoder := fun _ => [];
       memory_export :=
         Some {| Memory.buffer := [9; 9; 9; 9; 255; 255; 255; 255] |} |} in
  4 mod 4 = 0 /\
  readU32 LittleEndian self' 4 = Ok (Some ((-1) mod 4294967296)) /\
  readI32 LittleEndian self' 4 =
    Ok (Some (Word32Array.signed ((-1) mod 4294967296))) /\
  forall other,
    other < 4 \/ 4 + 4 <= other ->
    readU8 self' other =
    readU8 {| textDecoder := fun _ => [];
              memory_export :=
                Some {| Memory.buffer := [9; 9; 9; 9; 0; 0; 0; 0] |} |}
      other.
Proof.
  apply (writeU32_then_read LittleEndian
           {| textDecoder := fun _ => [];
              memory_export :=
                Some {| Memory.buffer := [9; 9; 9; 9; 0; 0; 0; 0] |} |}
           4 (-1)).
  reflexivity.
Defined.

(** X24: a number from -2^31 up to, and without, 2^31 that [writeI32] has
    stored is the number [readI32] gives at that offset, in either byte
    order. *)
Theorem writeI32_then_readI32 order self offset value self' :
  -2147483648 <= value < 2147483648 ->
  writeI32 order self offset value = Ok self' ->
  readI32 order self' offset = Ok (Some value).
Proof.
  intros Hvalue Hwrite.
  destruct (writeU32_returns order self offset value self' Hwrite)
    as (memory & Hmemory & Hneg & Haligned & Hfit & ->).
  assert (Z.to_nat offset + 4 <= List.length (Memory.buffer memory))%nat
    as Hfit' by lia.
  pose proof (put_length order _ _ value Hfit') as Hlength.
  destruct (read32_exported order
              (with_buffer self
                 (Word32Array.put order (Memory.buffer memory)
                    (Z.to_nat offset) value))
              _ offset eq_refl Hneg Haligned ltac:(lia)) as [_ HI].
  rewrite HI, put_bits by assumption. simpl. do 2 f_equal.
  unfold Word32Array.signed.
  destruct (value mod 4294967296 <? 2147483648) eqn:Hsign;
    [apply Z.ltb_lt in Hsign|apply Z.ltb_ge in Hsign];
    Z.div_mod_to_equations; lia.
Qed.

Lemma writeI32_then_readI32_witness :
  readI32 BigEndian
    {| textDecoder := fun _ => [];
       memory_export :=
         Some {| Memory.buffer := [255; 255; 255; 254; 0] |} |} 0 =
    Ok (Some (-2)).
Proof.
  apply (writeI32_then_readI32 BigEndian
           {| textDecoder := fun _ => [];
              memory_export := Some {| Memory.buffer := [0; 0; 0; 0; 0] |} |}
           0 (-2)); [lia|reflexivity].
Defined.

(** On a runner with exported memory, the 32-bit accessors throw
    [RangeError] for an offset that is not a multiple of 4, also when the
    four bytes from it on are in the buffer. *)
Lemma unaligned_offset_throws order self memory offset value :
  memory_export self = Some memory ->
  offset mod 4 <> 0 ->
  readU32 order self offset = Throw RangeError /\
  readI32 order self offset = Throw RangeError /\
  writeU32 order self offset value = Throw RangeError /\
  writeI32 order self offset value = Throw RangeError.
Proof.
  intros Hmemory Hunaligned.
  unfold readU32, readI32, writeU32, writeI32, Runner.memory,
    Word32Array.new.
  rewrite Hmemory. simpl.
  apply Z.eqb_neq in Hunaligned. rewrite Hunaligned. simpl.
  rewrite orb_true_r. auto.
Qed.

Lemma unaligned_offset_throws_witness :
  let self :=
    {| textDecoder := fun _ => [];
       memory_export :=
         Some {| Memory.buffer := [0; 1; 2; 3; 4; 5; 6; 7] |} |} in
  readU32 LittleEndian self 2 = Throw RangeError /\
  readI32 LittleEndian self 2 = Throw RangeError /\
  writeU32 LittleEndian self 2 1 = Throw RangeError /\
  writeI32 LittleEndian self 2 1 = Throw RangeError.
Proof.
  apply (unaligned_offset_throws LittleEndian
           {| textDecoder := fun _ => [];
              memory_export :=
                Some {| Memory.buffer := [0; 1; 2; 3; 4; 5; 6; 7] |} |}
           {| Memory.buffer := [0; 1; 2; 3; 4; 5; 6; 7] |} 2 1);
    [reflexivity|vm_compute; discriminate].
Defined.

End Words.
